(** * Dataset layer of cerana's zfs package: a shallow embedding

    The development follows [src/dataset.go], [src/zfs/destroy.go] and
    [src/providers/zfs/mount.go].  Go values are modelled as follows.

    - [uint64] is [N] (the code never does arithmetic on these numbers, it
      only copies them), [string] is [string], [bool] is [bool].
    - A Go pointer to a struct is an [option]: [None] is the nil pointer and
      reading a field through it is a run-time panic.
    - A Go map is a [gmap].  A map handed in by a caller is a reference into
      a store ([heap]), because [CreateVolume] writes into it; the nil map
      is the reference [None].
    - A function returning [error] (possibly with a value) returns a
      [result]: [Ret], [Err] or [Panic].
    - The native layer ([list], [create], [clone], [rollback], [snapshot],
      [ioctl], the nv encoder, [Dataset.Mount]) is not part of these source
      files; it is a parameter ([Native]).  Every call into it is recorded,
      with its arguments, in the [trace] of the state. *)

From Stdlib Require Import String Ascii NArith List.
From stdpp Require Import base option strings list gmap pretty.

Open Scope string_scope.

(** ** Go run-time values *)

(** An [error] value: [errors.New]/[fmt.Errorf] build an [errorString];
    system calls fail with an [Errno]. *)
Inductive error : Type :=
| errorString (msg : string)
| Errno (code : N).

Inductive panic : Type :=
| NilDereference
| SliceBoundsOutOfRange (low high : nat)
| IndexOutOfRange (index len : nat)
| AssignmentToNilMap.

Inductive result (A : Type) : Type :=
| Ret (a : A)
| Err (e : error)
| Panic (p : panic).
Arguments Ret {A} a.
Arguments Err {A} e.
Arguments Panic {A} p.

#[global] Instance error_eq_dec : EqDecision error.
Proof. solve_decision. Defined.
#[global] Instance panic_eq_dec : EqDecision panic.
Proof. solve_decision. Defined.

(** A dynamically typed value stored in a [map[string]interface{}]. *)
Inductive value : Type :=
| VUint64 (n : N)
| VString (s : string)
| VBool (b : bool).

#[global] Instance value_eq_dec : EqDecision value.
Proof. solve_decision. Defined.

(** [result] as an error monad, for the pure parts. *)
Definition rbind {A B} (r : result A) (k : A → result B) : result B :=
  match r with
  | Ret a => k a
  | Err e => Err e
  | Panic p => Panic p
  end.

(** The loop [for i, x := range xs { out[i] = f(x) }] for an [f] that may
    panic: elements are converted from left to right. *)
Fixpoint rmap {A B} (f : A → result B) (xs : list A) : result (list B) :=
  match xs with
  | [] => Ret []
  | x :: xs' => rbind (f x) (λ y, rbind (rmap f xs') (λ ys, Ret (y :: ys)))
  end.

(** [strings.Split(s, sep)] for a one-byte separator. *)
Fixpoint Split (s : string) (sep : ascii) : list string :=
  match s with
  | EmptyString => [EmptyString]
  | String c s' =>
      if decide (c = sep) then EmptyString :: Split s' sep
      else match Split s' sep with
           | [] => [String c EmptyString]
           | seg :: rest => String c seg :: rest
           end
  end.

(** ** Data model ([src/dataset.go], lines 13-137) *)

Definition DatasetFilesystem : string := "filesystem".
Definition DatasetSnapshot : string := "snapshot".
Definition DatasetVolume : string := "volume".

Module propClones.
Record t : Type := { Value : gmap string bool }.
End propClones.

Module propUint64.
Record t : Type := { Value : N }.
Definition value (p : t) : N := Value p.
End propUint64.

Module propUint64WithSource.
Record t : Type := { Source : string; Value : N }.
Definition value (p : t) : N := Value p.
End propUint64WithSource.

Module propString.
Record t : Type := { Value : string }.
Definition value (p : t) : string := Value p.
End propString.

Module propStringWithSource.
Record t : Type := { Source : string; Value : string }.
Definition value (p : t) : string := Value p.
End propStringWithSource.

Module dmuObjsetStats.
Record t : Type := {
  CreationTxg : N;
  Guid : N;
  Inconsistent : bool;
  IsSnapshot : bool;
  NumClones : N;
  Origin : string;
  Type_ : string
}.
End dmuObjsetStats.

Module dsProperties.
Record t : Type := {
  Available : propUint64.t;
  Clones : propClones.t;
  Compression : propStringWithSource.t;
  CompressRatio : propUint64.t;
  CreateTxg : propUint64.t;
  Creation : propUint64.t;
  DeferDestroy : propUint64.t;
  Guid : propUint64.t;
  LogicalReferenced : propUint64.t;
  LogicalUsed : propUint64.t;
  Mountpoint : propStringWithSource.t;
  ObjsetID : propUint64.t;
  Origin : propString.t;
  Quota : propUint64WithSource.t;
  RefCompressRatio : propUint64.t;
  RefQuota : propUint64WithSource.t;
  RefReservation : propUint64WithSource.t;
  Referenced : propUint64.t;
  Reservation : propUint64WithSource.t;
  Type_ : propUint64.t;
  Unique : propUint64.t;
  Used : propUint64.t;
  UsedByChildren : propUint64.t;
  UsedByDataset : propUint64.t;
  UsedByRefReservation : propUint64.t;
  UsedBySnapshots : propUint64.t;
  UserAccounting : propUint64.t;
  UserRefs : propUint64.t;
  Volsize : propUint64.t;
  VolBlockSize : propUint64.t;
  Written : propUint64.t
}.
End dsProperties.

(** The raw record decoded from a native reply.  Both nested structs are
    held through pointers. *)
Module ds.
Record t : Type := {
  DMUObjsetStats : option dmuObjsetStats.t;
  Name : string;
  Properties : option dsProperties.t
}.
End ds.

Module Dataset.
Record t : Type := {
  Name : string;
  Origin : string;
  Used : N;
  Avail : N;
  Mountpoint : string;
  Compression : string;
  Type_ : string;
  Written : N;
  Volsize : N;
  Usedbydataset : N;
  Logicalused : N;
  Quota : N;
  ds : option ds.t
}.
End Dataset.

Module MountArgs.
Record t : Type := { Name : string; Overlay : bool }.
End MountArgs.

Record DestroyOptions : Type := {
  Recursive : bool;
  RecursiveClones : bool;
  ForceUnmount : bool;
  Defer : bool
}.

(** ** The native layer

    None of the functions below is defined in the source files at hand;
    only their call sites are.  Each takes the arguments of its call site
    and acts on an abstract kernel state [World].  [rangeOrder] is the
    order in which the Go run time enumerates the keys of a map in a
    [for ... range] loop; the language leaves it unspecified, beyond that
    every key comes exactly once ([rangeOrder_perm]). *)
Record Native : Type := {
  World : Type;
  dmuType : Type;
  dmuType_eq_dec : EqDecision dmuType;
  dmuType_of_uint64 : N → dmuType;
  dmuType_zero : dmuType;
  dmuTypes : gmap string dmuType;
  dmuZFS : dmuType;
  dmuZVOL : dmuType;
  native_list :
    string → gmap string bool → bool → N → World → World * result (list (option ds.t));
  native_create : string → dmuType → gmap string value → World → World * result unit;
  native_clone : string → string → gmap string value → World → World * result unit;
  native_rollback : string → World → World * result unit;
  native_snapshot :
    string → list string → gmap string string → World → World * result unit;
  native_ioctl : string → list Byte.byte → World → World * result unit;
  native_mount : string → bool → World → World * result unit;
  nvEncode : gmap string value → result (list Byte.byte);
  rangeOrder : World → gmap string bool → list string;
  rangeOrder_perm : ∀ w m, rangeOrder w m ≡ₚ elements (dom m)
}.

#[global] Existing Instance dmuType_eq_dec.

(** A reference to a caller's [map[string]interface{}]. *)
Definition mapref : Type := option nat.

Section Core.
Context (K : Native).

(** One call into the native layer, with the arguments it was given. *)
Inductive Call : Type :=
| CallList (name : string) (types : gmap string bool) (recurse : bool) (depth : N)
| CallCreate (name : string) (createType : dmuType K) (properties : gmap string value)
| CallClone (name origin : string) (properties : gmap string value)
| CallRollback (name : string)
| CallSnapshot (zpool : string) (snapNames : list string) (props : gmap string string)
| CallIoctl (name : string) (request : list Byte.byte)
| CallMount (name : string) (overlay : bool).

Record State : Type := {
  world : World K;
  heap : gmap nat (gmap string value);
  trace : list Call
}.

(** Computations of the package: state passing with Go's three outcomes. *)
Definition M (A : Type) : Type := State → State * result A.

#[local] Instance M_ret : MRet M := λ A a s, (s, Ret a).
#[local] Instance M_bind : MBind M := λ A B k m s,
  match m s with
  | (s', Ret a) => k a s'
  | (s', Err e) => (s', Err e)
  | (s', Panic p) => (s', Panic p)
  end.

Definition fail {A} (e : error) : M A := λ s, (s, Err e).
Definition raise {A} (p : panic) : M A := λ s, (s, Panic p).
Definition pure_result {A} (r : result A) : M A := λ s, (s, r).

Definition native {A} (c : Call) (f : World K → World K * result A) : M A :=
  λ s, let (w, r) := f (world s) in
       ({| world := w; heap := heap s; trace := trace s ++ [c] |}, r).

Definition list_ (name : string) (types : gmap string bool) (recurse : bool)
    (depth : N) : M (list (option ds.t)) :=
  native (CallList name types recurse depth) (native_list K name types recurse depth).
Definition create (name : string) (createType : dmuType K)
    (properties : gmap string value) : M unit :=
  native (CallCreate name createType properties)
         (native_create K name createType properties).
Definition clone (name origin : string) (properties : gmap string value) : M unit :=
  native (CallClone name origin properties) (native_clone K name origin properties).
Definition rollback (name : string) : M unit :=
  native (CallRollback name) (native_rollback K name).
Definition snapshot (zpool : string) (snapNames : list string)
    (props : gmap string string) : M unit :=
  native (CallSnapshot zpool snapNames props) (native_snapshot K zpool snapNames props).
Definition ioctl (name : string) (request : list Byte.byte) : M unit :=
  native (CallIoctl name request) (native_ioctl K name request).

(** *** Maps passed by reference *)

(** What a reader of the map sees; the nil map reads as empty. *)
Definition mapContents (properties : mapref) (s : State) : gmap string value :=
  match properties with
  | None => ∅
  | Some l => default ∅ (heap s !! l)
  end.

(** [properties[key] = v] *)
Definition mapAssign (properties : mapref) (key : string) (v : value) : M unit :=
  λ s, match properties with
       | None => (s, Panic AssignmentToNilMap)
       | Some l =>
           ({| world := world s;
               heap := <[l := <[key := v]> (default ∅ (heap s !! l))]> (heap s);
               trace := trace s |}, Ret tt)
       end.

(** *** [dsToDataset] (lines 139-174) *)
Definition dsToDataset (in_ : option ds.t) : result Dataset.t :=
  match in_ with
  | None => Panic NilDereference
  | Some r =>
      match ds.DMUObjsetStats r, ds.Properties r with
      | Some stats, Some props =>
          let dsType :=
            if dmuObjsetStats.IsSnapshot stats then DatasetSnapshot
            else if decide (dmuType_of_uint64 K (propUint64.Value (dsProperties.Type_ props))
                            = default (dmuType_zero K) (dmuTypes K !! "zvol"))
                 then DatasetVolume
                 else DatasetFilesystem in
          let compression :=
            let c := propStringWithSource.Value (dsProperties.Compression props) in
            if decide (c = EmptyString) then "off" else c in
          let mountpoint :=
            let m := propStringWithSource.Value (dsProperties.Mountpoint props) in
            if bool_decide (m = EmptyString) && negb (bool_decide (dsType = DatasetSnapshot))
            then "/" ++ ds.Name r else m in
          Ret {| Dataset.Name := ds.Name r;
                 Dataset.Origin := propString.Value (dsProperties.Origin props);
                 Dataset.Used := propUint64.Value (dsProperties.Used props);
                 Dataset.Avail := propUint64.Value (dsProperties.Available props);
                 Dataset.Mountpoint := mountpoint;
                 Dataset.Compression := compression;
                 Dataset.Type_ := dsType;
                 Dataset.Written := propUint64.Value (dsProperties.Available props);
                 Dataset.Volsize := propUint64.Value (dsProperties.Volsize props);
                 Dataset.Usedbydataset :=
                   propUint64.Value (dsProperties.UsedByDataset props);
                 Dataset.Logicalused := propUint64.Value (dsProperties.LogicalUsed props);
                 Dataset.Quota := propUint64WithSource.Value (dsProperties.Quota props);
                 Dataset.ds := Some r |}
      | _, _ => Panic NilDereference
      end
  end.

(** *** Slices *)

(** [xs[low:]]: the bounds check compares [low] with the length. *)
Definition sliceFrom {A} (low : nat) (xs : list A) : M (list A) :=
  if decide (low ≤ length xs)%nat then mret (drop low xs)
  else raise (SliceBoundsOutOfRange low (length xs)).

(** [xs[i]] *)
Definition index {A} (xs : list A) (i : nat) : M A :=
  match xs !! i with
  | Some x => mret x
  | None => raise (IndexOutOfRange i (length xs))
  end.

(** *** Listing and lookup (lines 176-224) *)

Definition getDatasets (name dsType : string) (recurse : bool) (depth : N)
    : M (list Dataset.t) :=
  let types : gmap string bool := {[ dsType := true ]} in
  dss ← list_ name types recurse depth;
  pure_result (rmap dsToDataset dss).

Definition Datasets (name : string) : M (list Dataset.t) :=
  getDatasets name "all" true 0.
Definition Filesystems (name : string) : M (list Dataset.t) :=
  getDatasets name DatasetFilesystem true 0.
Definition Snapshots (name : string) : M (list Dataset.t) :=
  getDatasets name DatasetSnapshot true 0.
Definition Volumes (name : string) : M (list Dataset.t) :=
  getDatasets name DatasetVolume true 0.

(** [fmt.Errorf("expected 1 dataset, got %s", n)] for an [int] [n]: the
    verb [%s] applied to an integer prints [%!s(int=n)]. *)
Definition errExpectedOne (n : nat) : error :=
  errorString ("expected 1 dataset, got %!s(int=" ++ pretty n ++ ")").

Definition GetDataset (name : string) : M Dataset.t :=
  datasets ← getDatasets name "all" false 0;
  if decide (length datasets ≠ 1) then fail (errExpectedOne (length datasets))
  else index datasets 0.

(** *** Creation (lines 226-245) *)

Definition createDataset (name : string) (createType : dmuType K)
    (properties : mapref) : M Dataset.t :=
  (λ s, create name (dmuZFS K) (mapContents properties s) s);;
  GetDataset name.

Definition CreateFilesystem (name : string) (properties : mapref) : M Dataset.t :=
  createDataset name (dmuZFS K) properties.

Definition CreateVolume (name : string) (size : N) (properties : mapref)
    : M Dataset.t :=
  mapAssign properties "volsize" (VUint64 size);;
  createDataset name (dmuZVOL K) properties.

(** *** Children and clones (lines 253-270) *)

Definition Children (d : Dataset.t) (depth : N) : M (list Dataset.t) :=
  datasets ← getDatasets (Dataset.Name d) "all" true depth;
  sliceFrom 1 datasets.

Definition Clone (d : Dataset.t) (name : string) (properties : mapref) : M Dataset.t :=
  (λ s, clone name (Dataset.Name d) (mapContents properties s) s);;
  GetDataset name.

(** *** [destroy] ([src/zfs/destroy.go]) *)

Definition destroyCommand (deferFlag : bool) : gmap string value :=
  {[ "cmd" := VString "zfs_destroy";
     "version" := VUint64 0;
     "defer" := VBool deferFlag ]}.

Definition destroy (name : string) (deferFlag : bool) : M unit :=
  let m := destroyCommand deferFlag in
  encoded ← pure_result (nvEncode K m);
  ioctl name encoded.

(** *** [Dataset.Destroy] (lines 279-313)

    The method calls itself on data that comes back from the native layer,
    so the recursion has no structural bound; [fuel] bounds its depth and
    [None] means that the bound was reached. *)

Definition MF (A : Type) : Type := State → option (State * result A).

#[local] Instance MF_ret : MRet MF := λ A a s, Some (s, Ret a).
#[local] Instance MF_bind : MBind MF := λ A B k m s,
  match m s with
  | Some (s', Ret a) => k a s'
  | Some (s', Err e) => Some (s', Err e)
  | Some (s', Panic p) => Some (s', Panic p)
  | None => None
  end.

Definition liftF {A} (m : M A) : MF A := λ s, Some (m s).

(** [for _, x := range xs { if err := body(x); err != nil { return err } }] *)
Fixpoint forEach {A} (body : A → MF unit) (xs : list A) : MF unit :=
  match xs with
  | [] => mret tt
  | x :: xs' => body x;; forEach body xs'
  end.

(** [d.ds.Properties.Clones.Value] *)
Definition clonesOf (d : Dataset.t) : result (gmap string bool) :=
  match Dataset.ds d with
  | None => Panic NilDereference
  | Some r =>
      match ds.Properties r with
      | None => Panic NilDereference
      | Some props => Ret (propClones.Value (dsProperties.Clones props))
      end
  end.

(** [for cloneName, _ := range m]: the keys in the order of the run time. *)
Definition rangeKeys (m : gmap string bool) : MF (list string) :=
  λ s, Some (s, Ret (rangeOrder K (world s) m)).

Fixpoint Destroy (fuel : nat) (d : Dataset.t) (opts : DestroyOptions) : MF unit :=
  match fuel with
  | O => λ _, None
  | S fuel' =>
      (if Recursive opts then
         children ← liftF (Children d 1);
         forEach (λ child, Destroy fuel' child opts) children
       else mret tt);;
      (if RecursiveClones opts then
         clones ← liftF (pure_result (clonesOf d));
         cloneNames ← rangeKeys clones;
         forEach (λ cloneName,
                    clone ← liftF (GetDataset cloneName);
                    Destroy fuel' clone opts) cloneNames
       else mret tt);;
      liftF (destroy (Dataset.Name d) (Defer opts))
  end.

(** The body of the loop over the clones, on its own: fetch, then destroy. *)
Definition destroyClone (fuel : nat) (opts : DestroyOptions) (cloneName : string)
    : MF unit :=
  clone ← liftF (GetDataset cloneName);
  Destroy fuel clone opts.

(** *** [propClones.value] (lines 96-103)

    The slice has one slot per clone; the loop writes every key to slot
    [i], and [i] is never advanced. *)
Definition propClones_value (p : propClones.t) : M (list string) :=
  λ s,
    let clones := replicate (size (propClones.Value p)) EmptyString in
    let i := 0%nat in
    (s, fold_left
          (λ acc clone,
             rbind acc (λ clones,
               if decide (i < length clones)%nat then Ret (<[i := clone]> clones)
               else Panic (IndexOutOfRange i (length clones))))
          (rangeOrder K (world s) (propClones.Value p))
          (Ret clones)).

(** *** Rollback and snapshot (lines 334-350) *)

Definition Rollback (d : Dataset.t) (destroyMoreRecent : bool) : M unit :=
  rollback (Dataset.Name d).

Definition Snapshot (d : Dataset.t) (name : string) (recursive : bool) : M unit :=
  zpool ← index (Split (Dataset.Name d) "/") 0;
  let snapName := Dataset.Name d ++ "@" ++ name in
  snapshot zpool [snapName] ∅.

(** *** The Mount handler ([src/providers/zfs/mount.go])

    [Dataset.Mount] and the request decoder belong to packages that are not
    among the source files; the decoder is a parameter and the mount a
    native call. *)

Definition Dataset_Mount (d : Dataset.t) (overlay : bool) : M unit :=
  native (CallMount (Dataset.Name d) overlay) (native_mount K (Dataset.Name d) overlay).

Variable Request : Type.
Variable UnmarshalArgs : Request → result MountArgs.t.

Definition Mount (req : Request) : M unit :=
  args ← pure_result (UnmarshalArgs req);
  if decide (MountArgs.Name args = EmptyString)
  then fail (errorString "missing arg: name")
  else
    ds ← GetDataset (MountArgs.Name args);
    Dataset_Mount ds (MountArgs.Overlay args).

End Core.

Arguments trace {K} _.
Arguments heap {K} _.
Arguments world {K} _.
Arguments Build_State {K} _ _ _.
Arguments CallList {K} _ _ _ _.
Arguments CallCreate {K} _ _ _.
Arguments CallClone {K} _ _ _.
Arguments CallRollback {K} _.
Arguments CallSnapshot {K} _ _ _.
Arguments CallIoctl {K} _ _.
Arguments CallMount {K} _ _.
Arguments native {K A} _ _ _.
Arguments fail {K A} _ _.
Arguments raise {K A} _ _.
Arguments pure_result {K A} _ _.
Arguments list_ {K} _ _ _ _ _.
Arguments create {K} _ _ _ _.
Arguments clone {K} _ _ _ _.
Arguments rollback {K} _ _.
Arguments snapshot {K} _ _ _ _.
Arguments ioctl {K} _ _ _.
Arguments mapContents {K} _ _.
Arguments mapAssign {K} _ _ _ _.
Arguments sliceFrom {K A} _ _ _.
Arguments index {K A} _ _ _.
Arguments getDatasets {K} _ _ _ _ _.
Arguments GetDataset {K} _ _.
Arguments createDataset {K} _ _ _ _.
Arguments CreateFilesystem {K} _ _ _.
Arguments CreateVolume {K} _ _ _ _.
Arguments Children {K} _ _ _.
Arguments Clone {K} _ _ _ _.
Arguments destroy {K} _ _ _.
Arguments forEach {K A} _ _ _.
Arguments liftF {K A} _ _.
Arguments Destroy {K} _ _ _ _.
Arguments destroyClone {K} _ _ _ _.
Arguments propClones_value {K} _ _.
Arguments Rollback {K} _ _ _.
Arguments Snapshot {K} _ _ _ _.
Arguments Dataset_Mount {K} _ _ _.
Arguments Mount {K Request} _ _ _.

(** The first path segment of a dataset name: everything before the first
    [/] (the pool). *)
Fixpoint firstSegment (s : string) : string :=
  match s with
  | EmptyString => EmptyString
  | String c s' => if decide (c = "/"%char) then EmptyString else String c (firstSegment s')
  end.

(** The calls a recursive destroy is expected to make: listings and the
    destroy command. *)
Definition listOrIoctl {K} (c : Call K) : Prop :=
  match c with
  | CallList _ _ _ _ | CallIoctl _ _ => True
  | _ => False
  end.

(** A sequence of steps as the specification words it: the steps run in
    order, the first one that does not succeed ends the run with its
    outcome, and no later step is executed. *)
Inductive runs {K A} (body : A → MF K unit)
    : list A → State K → State K → result unit → Prop :=
| runs_done s : runs body [] s s (Ret tt)
| runs_next x xs s s1 s2 r :
    body x s = Some (s1, Ret tt) → runs body xs s1 s2 r → runs body (x :: xs) s s2 r
| runs_abort x xs s s1 r :
    body x s = Some (s1, r) → r ≠ Ret tt → runs body (x :: xs) s s1 r.

(** [s'] comes after [s] by listings and destroy commands only: the maps
    of the callers are as they were and nothing else was asked of the
    native layer (no create, clone, rollback or snapshot). *)
Definition destroyedOnly {K} (s s' : State K) : Prop :=
  heap s' = heap s ∧ ∃ T, trace s' = (trace s ++ T)%list ∧ Forall listOrIoctl T.

(** ** A small kernel to run the package against

    Datasets are kept in listing order; destroying a dataset named in
    [busy] fails with EBUSY.  A listing returns the named dataset followed
    by its descendants (those whose name extends it by a [/] or [@] part),
    down to [depth] levels when [depth] is not zero. *)

Definition zeroUint64 : propUint64.t := {| propUint64.Value := 0 |}.
Definition zeroUint64WithSource : propUint64WithSource.t :=
  {| propUint64WithSource.Source := EmptyString; propUint64WithSource.Value := 0 |}.

Definition toyProperties (dsType : N) (clones : gmap string bool) (mountpoint : string)
    (available written volsize : N) : dsProperties.t :=
  {| dsProperties.Available := {| propUint64.Value := available |};
     dsProperties.Clones := {| propClones.Value := clones |};
     dsProperties.Compression :=
       {| propStringWithSource.Source := EmptyString;
          propStringWithSource.Value := EmptyString |};
     dsProperties.CompressRatio := zeroUint64;
     dsProperties.CreateTxg := zeroUint64;
     dsProperties.Creation := zeroUint64;
     dsProperties.DeferDestroy := zeroUint64;
     dsProperties.Guid := zeroUint64;
     dsProperties.LogicalReferenced := zeroUint64;
     dsProperties.LogicalUsed := zeroUint64;
     dsProperties.Mountpoint :=
       {| propStringWithSource.Source := "local";
          propStringWithSource.Value := mountpoint |};
     dsProperties.ObjsetID := zeroUint64;
     dsProperties.Origin := {| propString.Value := EmptyString |};
     dsProperties.Quota := zeroUint64WithSource;
     dsProperties.RefCompressRatio := zeroUint64;
     dsProperties.RefQuota := zeroUint64WithSource;
     dsProperties.RefReservation := zeroUint64WithSource;
     dsProperties.Referenced := zeroUint64;
     dsProperties.Reservation := zeroUint64WithSource;
     dsProperties.Type_ := {| propUint64.Value := dsType |};
     dsProperties.Unique := zeroUint64;
     dsProperties.Used := zeroUint64;
     dsProperties.UsedByChildren := zeroUint64;
     dsProperties.UsedByDataset := zeroUint64;
     dsProperties.UsedByRefReservation := zeroUint64;
     dsProperties.UsedBySnapshots := zeroUint64;
     dsProperties.UserAccounting := zeroUint64;
     dsProperties.UserRefs := zeroUint64;
     dsProperties.Volsize := {| propUint64.Value := volsize |};
     dsProperties.VolBlockSize := zeroUint64;
     dsProperties.Written := {| propUint64.Value := written |} |}.

Definition toyRecord (name : string) (isSnapshot : bool) (props : dsProperties.t) : ds.t :=
  {| ds.DMUObjsetStats :=
       Some {| dmuObjsetStats.CreationTxg := 0;
               dmuObjsetStats.Guid := 0;
               dmuObjsetStats.Inconsistent := false;
               dmuObjsetStats.IsSnapshot := isSnapshot;
               dmuObjsetStats.NumClones := 0;
               dmuObjsetStats.Origin := EmptyString;
               dmuObjsetStats.Type_ := EmptyString |};
     ds.Name := name;
     ds.Properties := Some props |}.

Record toyWorld : Type := {
  live : list ds.t;
  busy : list string
}.

(** The part of [name] after [root] when [name] lies strictly below it. *)
Definition below (root name : string) : option string :=
  if String.prefix (root ++ "/") name || String.prefix (root ++ "@") name
  then Some (String.substring (S (String.length root))
                              (String.length name - S (String.length root)) name)
  else None.

Definition toy_listed (root : string) (recurse : bool) (depth : N) (r : ds.t) : bool :=
  bool_decide (ds.Name r = root)
  || (recurse &&
      match below root (ds.Name r) with
      | Some rest =>
          bool_decide (depth = 0%N)
          || bool_decide (length (Split rest "/") ≤ N.to_nat depth)%nat
      | None => false
      end).

Definition toy_list (name : string) (types : gmap string bool) (recurse : bool)
    (depth : N) (w : toyWorld) : toyWorld * result (list (option ds.t)) :=
  if bool_decide (name ∈ map ds.Name (live w))
  then (w, Ret (map Some (filter (λ r, toy_listed name recurse depth r = true) (live w))))
  else (w, Err (Errno 2)).

Definition toy_create (name : string) (createType : N) (properties : gmap string value)
    (w : toyWorld) : toyWorld * result unit :=
  if bool_decide (name ∈ map ds.Name (live w)) then (w, Err (Errno 17))
  else
    let volsize := match properties !! "volsize" with Some (VUint64 n) => n | _ => 0%N end in
    ({| live := live w ++ [toyRecord name false
                             (toyProperties createType ∅ EmptyString 0 0 volsize)];
        busy := busy w |}, Ret tt).

Definition toy_ioctl (name : string) (request : list Byte.byte) (w : toyWorld)
    : toyWorld * result unit :=
  if bool_decide (name ∈ busy w) then (w, Err (Errno 16))
  else if bool_decide (name ∈ map ds.Name (live w))
       then ({| live := filter (λ r, ds.Name r ≠ name) (live w); busy := busy w |}, Ret tt)
       else (w, Err (Errno 2)).

Definition toy_nvEncode (m : gmap string value) : result (list Byte.byte) :=
  match m !! "defer" with
  | Some (VBool true) => Ret [Byte.x01]
  | Some (VBool false) => Ret [Byte.x00]
  | _ => Err (errorString "unsupported value")
  end.

Definition toy_rangeOrder (w : toyWorld) (m : gmap string bool) : list string :=
  elements (dom m).

Definition toyKernel : Native :=
  {| World := toyWorld;
     dmuType := N;
     dmuType_eq_dec := _;
     dmuType_of_uint64 := λ n, n;
     dmuType_zero := 0%N;
     dmuTypes := {[ "zfs" := 2%N; "zvol" := 3%N ]};
     dmuZFS := 2%N;
     dmuZVOL := 3%N;
     native_list := toy_list;
     native_create := toy_create;
     native_clone := λ _ _ _ w, (w, Ret tt);
     native_rollback := λ _ w, (w, Ret tt);
     native_snapshot := λ _ _ _ w, (w, Ret tt);
     native_ioctl := toy_ioctl;
     native_mount := λ _ _ w, (w, Ret tt);
     nvEncode := toy_nvEncode;
     rangeOrder := toy_rangeOrder;
     rangeOrder_perm := λ _ m, Permutation_refl (elements (dom m)) |}.

(** The scenario of the recursive destroy: [pool/a] has the child
    [pool/a/b] and records the clone [pool/c]. *)
Definition toyFilesystem (name : string) (clones : gmap string bool) : ds.t :=
  toyRecord name false (toyProperties 2 clones EmptyString 0 0 0).

Definition poolA : ds.t := toyFilesystem "pool/a" {[ "pool/c" := true ]}.

Definition scenarioWorld (busyNames : list string) : toyWorld :=
  {| live := [toyFilesystem "pool" ∅; poolA; toyFilesystem "pool/a/b" ∅;
              toyFilesystem "pool/c" ∅];
     busy := busyNames |}.

Definition toyState (w : toyWorld) : State toyKernel :=
  @Build_State toyKernel w ∅ [].

Definition destroyAll : DestroyOptions :=
  {| Recursive := true; RecursiveClones := true; ForceUnmount := false; Defer := false |}.

Definition snapWithMountpoint : ds.t :=
  toyRecord "pool/fs@s1" true (toyProperties 2 ∅ "/mnt/snap" 0 0 0).

(** [&Dataset{Name: name}], the other fields zero. *)
Definition zeroDataset (name : string) : Dataset.t :=
  {| Dataset.Name := name; Dataset.Origin := EmptyString; Dataset.Used := 0;
     Dataset.Avail := 0; Dataset.Mountpoint := EmptyString;
     Dataset.Compression := EmptyString; Dataset.Type_ := EmptyString;
     Dataset.Written := 0; Dataset.Volsize := 0; Dataset.Usedbydataset := 0;
     Dataset.Logicalused := 0; Dataset.Quota := 0; Dataset.ds := None |}.

(** The dataset the package builds from a record of the small kernel. *)
Definition toyDataset (r : ds.t) : Dataset.t :=
  match dsToDataset toyKernel (Some r) with
  | Ret d => d
  | _ => zeroDataset (ds.Name r)
  end.

Definition listAll (name : string) (recurse : bool) (depth : N) : Call toyKernel :=
  CallList name {[ "all" := true ]} recurse depth.

(** The state expected after the recursive destroy of [pool/a]. *)
Definition scenarioDestroyed : State toyKernel :=
  @Build_State toyKernel
    {| live := [toyFilesystem "pool" ∅]; busy := [] |}
    ∅
    [listAll "pool/a" true 1;
     listAll "pool/a/b" true 1;
     CallIoctl "pool/a/b" [Byte.x00];
     listAll "pool/c" false 0;
     listAll "pool/c" true 1;
     CallIoctl "pool/c" [Byte.x00];
     CallIoctl "pool/a" [Byte.x00]].

(** The same destroy asked with [Defer]: every destroy command carries the
    flag (the small encoder writes it as the byte 01). *)
Definition destroyAllDeferred : DestroyOptions :=
  {| Recursive := true; RecursiveClones := true; ForceUnmount := false; Defer := true |}.

Definition scenarioDestroyedDeferred : State toyKernel :=
  @Build_State toyKernel
    {| live := [toyFilesystem "pool" ∅]; busy := [] |}
    ∅
    [listAll "pool/a" true 1;
     listAll "pool/a/b" true 1;
     CallIoctl "pool/a/b" [Byte.x01];
     listAll "pool/c" false 0;
     listAll "pool/c" true 1;
     CallIoctl "pool/c" [Byte.x01];
     CallIoctl "pool/a" [Byte.x01]].

(** The state expected when [pool/a/b] is busy: nothing is destroyed. *)
Definition scenarioAborted : State toyKernel :=
  @Build_State toyKernel
    (scenarioWorld ["pool/a/b"])
    ∅
    [listAll "pool/a" true 1;
     listAll "pool/a/b" true 1;
     CallIoctl "pool/a/b" [Byte.x00]].

(** A kernel whose listings come back empty, whatever is asked. *)
Definition silentKernel : Native :=
  {| World := unit;
     dmuType := N;
     dmuType_eq_dec := _;
     dmuType_of_uint64 := λ n, n;
     dmuType_zero := 0%N;
     dmuTypes := ∅;
     dmuZFS := 2%N;
     dmuZVOL := 3%N;
     native_list := λ _ _ _ _ w, (w, Ret []);
     native_create := λ _ _ _ w, (w, Ret tt);
     native_clone := λ _ _ _ w, (w, Ret tt);
     native_rollback := λ _ w, (w, Ret tt);
     native_snapshot := λ _ _ _ w, (w, Ret tt);
     native_ioctl := λ _ _ w, (w, Ret tt);
     native_mount := λ _ _ w, (w, Ret tt);
     nvEncode := toy_nvEncode;
     rangeOrder := λ _ m, elements (dom m);
     rangeOrder_perm := λ _ m, Permutation_refl (elements (dom m)) |}.

(** A caller's map at reference 0, with a [volsize] of its own. *)
Definition callerMap : gmap string value :=
  {[ "volsize" := VUint64 1; "compression" := VString "lz4" ]}.

Definition callerState : State toyKernel :=
  @Build_State toyKernel (scenarioWorld []) {[ 0%nat := callerMap ]} [].

(** A request decoder for the handler: the request is the name itself. *)
Definition toyUnmarshalArgs (req : string) : result MountArgs.t :=
  Ret {| MountArgs.Name := req; MountArgs.Overlay := false |}.

(** The small kernel with an encoder that rejects every command. *)
Definition failingEncoderKernel : Native :=
  {| World := toyWorld;
     dmuType := N;
     dmuType_eq_dec := _;
     dmuType_of_uint64 := λ n, n;
     dmuType_zero := 0%N;
     dmuTypes := {[ "zfs" := 2%N; "zvol" := 3%N ]};
     dmuZFS := 2%N;
     dmuZVOL := 3%N;
     native_list := toy_list;
     native_create := toy_create;
     native_clone := λ _ _ _ w, (w, Ret tt);
     native_rollback := λ _ w, (w, Ret tt);
     native_snapshot := λ _ _ _ w, (w, Ret tt);
     native_ioctl := toy_ioctl;
     native_mount := λ _ _ w, (w, Ret tt);
     nvEncode := λ _, Err (errorString "nv: unsupported type");
     rangeOrder := toy_rangeOrder;
     rangeOrder_perm := λ _ m, Permutation_refl (elements (dom m)) |}.

(** A volume, a snapshot of a volume, and a record without properties. *)
Definition toyVolume : ds.t :=
  toyRecord "pool/vol" false (toyProperties 3 ∅ EmptyString 0 0 4096).
Definition toyVolumeSnapshot : ds.t :=
  toyRecord "pool/vol@s1" true (toyProperties 3 ∅ EmptyString 0 0 4096).
Definition recordWithoutProperties : ds.t :=
  {| ds.DMUObjsetStats := ds.DMUObjsetStats toyVolume;
     ds.Name := "pool/half";
     ds.Properties := None |}.

Definition destroyPlain (forceUnmount : bool) : DestroyOptions :=
  {| Recursive := false; RecursiveClones := false;
     ForceUnmount := forceUnmount; Defer := false |}.

(** * Properties *)

Section Properties.
Context (K : Native).
Implicit Types (s : State K) (d : Dataset.t) (name : string).
#[local] Existing Instances M_ret M_bind MF_ret MF_bind.

Lemma Split_firstSegment (str : string) :
  ∃ rest, Split str "/" = firstSegment str :: rest.
Proof.
  induction str as [|c str [rest IH]]; simpl.
  - by exists [].
  - destruct (decide (c = "/"%char)); [by eexists|].
    rewrite IH. by eexists.
Qed.

Lemma rmap_length {A B} (f : A → result B) (xs : list A) (ys : list B) :
  rmap f xs = Ret ys → length ys = length xs.
Proof.
  revert ys. induction xs as [|x xs IH]; simpl; intros ys H.
  - by inversion H.
  - destruct (f x); simpl in H; try discriminate.
    destruct (rmap f xs); simpl in H; try discriminate.
    inversion H; subst. simpl. f_equal. by apply IH.
Qed.

(** What [getDatasets] does once the reply of the native listing is known. *)
Lemma getDatasets_run name dsType recurse depth s w r :
  native_list K name {[ dsType := true ]} recurse depth (world s) = (w, r) →
  getDatasets name dsType recurse depth s =
    (Build_State w (heap s)
       (trace s ++ [CallList name {[ dsType := true ]} recurse depth]),
     rbind r (rmap (dsToDataset K))).
Proof.
  intros H. unfold getDatasets, mbind, M_bind, list_, native, pure_result.
  rewrite H. by destruct r.
Qed.

(** C6 (amended). For every raw record whose nested structs are present,
    normalization succeeds and derives the mountpoint as follows: when the
    native mountpoint is empty and the type is not snapshot, it is [/]
    followed by the name; in every other case it is the native mountpoint
    unchanged.  In particular a snapshot keeps its native mountpoint: it
    is empty exactly when the native value is empty. *)
Theorem dsToDataset_mountpoint (r : ds.t) stats props :
  ds.DMUObjsetStats r = Some stats →
  ds.Properties r = Some props →
  ∃ d, dsToDataset K (Some r) = Ret d ∧
    (Dataset.Type_ d = DatasetSnapshot ↔ dmuObjsetStats.IsSnapshot stats = true) ∧
    let native := propStringWithSource.Value (dsProperties.Mountpoint props) in
    (native = EmptyString → Dataset.Type_ d ≠ DatasetSnapshot →
       Dataset.Mountpoint d = "/" ++ ds.Name r) ∧
    (Dataset.Type_ d = DatasetSnapshot → Dataset.Mountpoint d = native) ∧
    (native ≠ EmptyString → Dataset.Mountpoint d = native).
Proof.
  intros Hstats Hprops. unfold dsToDataset. rewrite Hstats, Hprops.
  eexists. split; [reflexivity|]. cbn [Dataset.Type_ Dataset.Mountpoint].
  set (native := propStringWithSource.Value _).
  destruct (dmuObjsetStats.IsSnapshot stats); [|destruct (decide _)]; cbn;
    destruct (bool_decide_reflect (native = EmptyString)) as [Hn|Hn]; cbn;
    (split; [split; (done || discriminate)|]);
    repeat split; intros; try done; congruence.
Qed.

(** C7. The space-accounting fields of the normalized dataset, read off the
    record: [Used], [Avail], [Logicalused], [Volsize] and [Usedbydataset]
    carry the native property of the same name, but [Written] carries the
    native [available] property and not [written]. *)
Theorem dsToDataset_space_accounting name stats props :
  rbind (dsToDataset K (Some {| ds.DMUObjsetStats := Some stats;
                                 ds.Name := name;
                                 ds.Properties := Some props |}))
        (λ d, Ret (Dataset.Used d, Dataset.Avail d, Dataset.Written d,
                   Dataset.Logicalused d, Dataset.Volsize d, Dataset.Usedbydataset d))
  = Ret (propUint64.Value (dsProperties.Used props),
         propUint64.Value (dsProperties.Available props),
         propUint64.Value (dsProperties.Available props),
         propUint64.Value (dsProperties.LogicalUsed props),
         propUint64.Value (dsProperties.Volsize props),
         propUint64.Value (dsProperties.UsedByDataset props)).
Proof. reflexivity. Qed.

(** The count printed in the error of [GetDataset] identifies it. *)
Lemma append_paren_inj (s1 s2 : string) : s1 ++ ")" = s2 ++ ")" → s1 = s2.
Proof.
  revert s2. induction s1 as [|c s1 IH]; intros [|c' s2] H; simpl in H.
  - done.
  - injection H as _ H. by destruct s2.
  - injection H as _ H. by destruct s1.
  - injection H as -> H. f_equal. by apply IH.
Qed.

Lemma errExpectedOne_inj (n m : nat) : errExpectedOne n = errExpectedOne m → n = m.
Proof.
  unfold errExpectedOne. intros H. injection H as H.
  apply (inj (String.app _)) in H. apply append_paren_inj in H.
  by apply (inj pretty) in H.
Qed.

(** C5. Suppose the listing for [name] (type filter [all], not recursive,
    depth 0) succeeds with records that all convert.  Then [GetDataset]
    returns a dataset exactly when there is exactly one record, and it is
    that record's dataset.  With no record it fails with the error
    "expected 1 dataset, got 0" (the not-found case), with two or more with
    "expected 1 dataset, got n" for the count n (the ambiguous case); the
    two errors differ, and no record is ever picked from a longer listing. *)
Theorem GetDataset_cardinality name s w dss datasets :
  native_list K name {[ "all" := true ]} false 0 (world s) = (w, Ret dss) →
  rmap (dsToDataset K) dss = Ret datasets →
  let s' := Build_State w (heap s)
              (trace s ++ [CallList name {[ "all" := true ]} false 0]) in
  length datasets = length dss ∧
  (∀ d, GetDataset name s = (s', Ret d) ↔ datasets = [d]) ∧
  (datasets = [] → GetDataset name s = (s', Err (errExpectedOne 0))) ∧
  ((2 ≤ length datasets)%nat →
     GetDataset name s = (s', Err (errExpectedOne (length datasets))) ∧
     errExpectedOne (length datasets) ≠ errExpectedOne 0).
Proof.
  intros Hlist Hconv s'.
  assert (Hrun : GetDataset name s =
            (if decide (length datasets ≠ 1) then fail (errExpectedOne (length datasets))
             else index datasets 0) s').
  { unfold GetDataset, mbind, M_bind.
    rewrite (getDatasets_run _ _ _ _ _ _ _ Hlist). simpl. by rewrite Hconv. }
  split; [by eapply rmap_length|]. split; [|split].
  - intros d. rewrite Hrun. destruct datasets as [|d0 [|d1 rest]]; simpl.
    + split; [by inversion 1 | done].
    + unfold index, mret, M_ret; simpl. split; intros H; by simplify_eq.
    + split; [by inversion 1 | done].
  - intros ->. by rewrite Hrun.
  - intros Hlen. rewrite Hrun. split.
    + destruct (decide (length datasets ≠ 1)); [done | lia].
    + intros H%errExpectedOne_inj. lia.
Qed.

(** C9. Suppose the recursive listing rooted at the dataset succeeds.  If
    it is empty, [Children] panics on the slice expression (bounds 1:0)
    instead of returning a value or an error; if its records convert to
    self followed by the rest, [Children] returns the rest.  So, for
    records that convert, [Children] panics exactly when the listing is
    empty. *)
Theorem Children_empty_listing_panics d depth s w dss :
  native_list K (Dataset.Name d) {[ "all" := true ]} true depth (world s) = (w, Ret dss) →
  let s' := Build_State w (heap s)
              (trace s ++ [CallList (Dataset.Name d) {[ "all" := true ]} true depth]) in
  (dss = [] → Children d depth s = (s', Panic (SliceBoundsOutOfRange 1 0))) ∧
  (∀ self rest, rmap (dsToDataset K) dss = Ret (self :: rest) →
     Children d depth s = (s', Ret rest)) ∧
  (∀ datasets, rmap (dsToDataset K) dss = Ret datasets →
     (∃ p, Children d depth s = (s', Panic p)) ↔ dss = []).
Proof.
  intros Hlist s'.
  assert (Hrun : ∀ datasets, rmap (dsToDataset K) dss = Ret datasets →
            Children d depth s = sliceFrom 1 datasets s').
  { intros datasets Hconv. unfold Children, mbind, M_bind.
    rewrite (getDatasets_run _ _ _ _ _ _ _ Hlist). simpl. by rewrite Hconv. }
  split; [|split].
  - intros ->. by rewrite (Hrun [] eq_refl).
  - intros self rest Hconv. by rewrite (Hrun _ Hconv).
  - intros datasets Hconv. rewrite (Hrun _ Hconv).
    pose proof (rmap_length _ _ _ Hconv) as Hlen.
    destruct dss as [|r dss], datasets as [|d0 datasets]; try done.
    + split; [done|]. intros _. by eexists.
    + split; [|done]. by intros [p Hp].
Qed.

(** C2. The native call issued by [Snapshot]: the pool argument is the
    first path segment of the dataset's name and the only snapshot name is
    the dataset's name, [@], and the given name.  The call has no place
    for the [recursive] flag: both values of the flag issue the same call. *)
Theorem Snapshot_native_call d name (recursive : bool) s :
  Snapshot d name recursive s
    = snapshot (firstSegment (Dataset.Name d)) [Dataset.Name d ++ "@" ++ name] ∅ s ∧
  trace (Snapshot d name recursive s).1
    = (trace s ++ [CallSnapshot (firstSegment (Dataset.Name d))
                     [(Dataset.Name d ++ "@" ++ name)%string] ∅])%list ∧
  Snapshot d name true s = Snapshot d name false s.
Proof.
  assert (H : ∀ b, Snapshot d name b s
      = snapshot (firstSegment (Dataset.Name d)) [Dataset.Name d ++ "@" ++ name] ∅ s).
  { intros b. unfold Snapshot, mbind, M_bind, index.
    destruct (Split_firstSegment (Dataset.Name d)) as [rest ->]. done. }
  split; [apply H|]. split; [|by rewrite !H].
  rewrite H. unfold snapshot, native. by destruct (native_snapshot _ _ _ _ _).
Qed.

(** C3. The native call issued by [Rollback] carries the dataset's name
    and nothing else: [Rollback true] and [Rollback false] issue the same
    call and behave alike. *)
Theorem Rollback_native_call d (destroyMoreRecent : bool) s :
  Rollback d destroyMoreRecent s = rollback (Dataset.Name d) s ∧
  trace (Rollback d destroyMoreRecent s).1
    = (trace s ++ [CallRollback (Dataset.Name d)])%list ∧
  Rollback d true s = Rollback d false s.
Proof.
  split; [done|]. split; [|done].
  unfold Rollback, rollback, native. by destruct (native_rollback _ _ _).
Qed.

(** [GetDataset] makes one native call, the listing, and leaves the store
    of maps alone. *)
Lemma GetDataset_state name s :
  (GetDataset name s).1
  = Build_State (native_list K name {[ "all" := true ]} false 0 (world s)).1 (heap s)
      (trace s ++ [CallList name {[ "all" := true ]} false 0]).
Proof.
  destruct (native_list K name {[ "all" := true ]} false 0 (world s)) as [w r] eqn:Hlist.
  unfold GetDataset, mbind, M_bind. rewrite (getDatasets_run _ _ _ _ _ _ _ Hlist).
  destruct (rbind r _) as [datasets| |]; simpl; try done.
  destruct (decide _); [done|]. unfold index. by destruct (datasets !! 0).
Qed.

(** What [createDataset] leaves behind: the create call, always of type
    [dmuZFS], then the listing of [GetDataset] if the create succeeded. *)
Lemma createDataset_state name createType properties s :
  ∃ T, (T = [] ∨ T = [CallList name {[ "all" := true ]} false 0]) ∧
    heap (createDataset name createType properties s).1 = heap s ∧
    trace (createDataset name createType properties s).1
    = (trace s ++ CallCreate name (dmuZFS K) (mapContents properties s) :: T)%list.
Proof.
  unfold createDataset, mbind, M_bind, create, native.
  destruct (native_create _ _ _ _ _) as [w [[]| |]]; simpl.
  - exists [CallList name {[ "all" := true ]} false 0].
    rewrite GetDataset_state. simpl. split; [by right|]. split; [done|].
    by rewrite <- app_assoc.
  - exists []. simpl. by split; [left|].
  - exists []. simpl. by split; [left|].
Qed.

(** C4. The native create call issued by [CreateVolume] on a map [l]: its
    property map is the caller's map with [volsize] set to [size], and its
    type argument is [dmuZFS], the filesystem type handed over by
    [createDataset] whatever type it was asked for; [dmuZVOL] is not
    passed on.  No other create call is made. *)
Theorem CreateVolume_create_call name (size : N) (l : nat) s :
  let props := <["volsize" := VUint64 size]> (mapContents (Some l) s) in
  props !! "volsize" = Some (VUint64 size) ∧
  ∃ T, (T = [] ∨ T = [CallList name {[ "all" := true ]} false 0]) ∧
    trace (CreateVolume name size (Some l) s).1
    = (trace s ++ CallCreate name (dmuZFS K) props :: T)%list.
Proof.
  intros props. split; [by apply lookup_insert_eq|].
  unfold CreateVolume, mbind, M_bind, mapAssign.
  match goal with |- context [createDataset ?n ?t ?p ?st] =>
    destruct (createDataset_state n t p st) as (T & HT & _ & Htr) end.
  exists T. split; [done|]. rewrite Htr. simpl. by rewrite lookup_insert_eq.
Qed.

(** C10. [CreateVolume] writes into the map it is given.  For a map [l]
    holding [m], after the call [l] holds [m] with [volsize] set to
    [size]: the entry is there with that value (replacing any earlier
    one), every other key of the map is as before, and so is every other
    map.  Given the nil map, the call panics on the assignment, before any
    native call.  (The native layer reads the map's contents; it is taken
    not to write to the caller's map.) *)
Theorem CreateVolume_mutates_map name (size : N) (l : nat) s (m : gmap string value) :
  heap s !! l = Some m →
  let s' := (CreateVolume name size (Some l) s).1 in
  heap s' = <[l := <["volsize" := VUint64 size]> m]> (heap s) ∧
  (∃ m', heap s' !! l = Some m' ∧
         m' !! "volsize" = Some (VUint64 size) ∧
         ∀ k, k ≠ "volsize" → m' !! k = m !! k) ∧
  (∀ l', l' ≠ l → heap s' !! l' = heap s !! l') ∧
  (∀ s0, CreateVolume name size None s0 = (s0, Panic AssignmentToNilMap)).
Proof.
  intros Hm s'.
  assert (Hheap : heap s' = <[l := <["volsize" := VUint64 size]> m]> (heap s)).
  { unfold s', CreateVolume, mbind, M_bind, mapAssign.
    match goal with |- context [createDataset ?n ?t ?p ?st] =>
      destruct (createDataset_state n t p st) as (T & _ & Hh & _) end.
    rewrite Hh. simpl. by rewrite Hm. }
  split; [done|]. rewrite Hheap. split; [|split].
  - eexists. split; [apply lookup_insert_eq|].
    split; [apply lookup_insert_eq|]. intros k Hk. by apply lookup_insert_ne.
  - intros l' Hl'. by apply lookup_insert_ne.
  - done.
Qed.

Section Handler.
Context {Request : Type} (UnmarshalArgs : Request → result MountArgs.t).

(** C8. When the decoded arguments of a request have an empty name, the
    Mount handler returns the error "missing arg: name" and leaves the
    state as it was: no native call, so neither the dataset lookup nor the
    mount.  Moreover, whenever the handler makes a native call at all, the
    arguments decoded and their name is not empty. *)
Theorem Mount_empty_name (req : Request) s (args : MountArgs.t) :
  UnmarshalArgs req = Ret args →
  MountArgs.Name args = EmptyString →
  Mount UnmarshalArgs req s = (s, Err (errorString "missing arg: name")) ∧
  (∀ (req' : Request) s0,
     trace (Mount UnmarshalArgs req' s0).1 ≠ trace s0 →
     ∃ args', UnmarshalArgs req' = Ret args' ∧ MountArgs.Name args' ≠ EmptyString).
Proof.
  intros Hargs Hname. split.
  - unfold Mount, mbind, M_bind, pure_result. rewrite Hargs.
    by destruct (decide _).
  - intros req' s0. unfold Mount, mbind, M_bind, pure_result.
    destruct (UnmarshalArgs req') as [args'| |]; try done.
    destruct (decide _); [done|]. intros _. by exists args'.
Qed.

End Handler.

(** *** Recursive destroy *)

Lemma forEach_runs {A} (body : A → MF K unit) (xs : list A) s s' r :
  forEach body xs s = Some (s', r) ↔ runs body xs s s' r.
Proof.
  split.
  - revert s. induction xs as [|x xs IH]; intros s H.
    + inversion H; subst. constructor.
    + simpl in H. unfold mbind, MF_bind in H.
      destruct (body x s) as [[s1 [[]|e|p]]|] eqn:Hx; try done.
      * eapply runs_next; eauto.
      * inversion H; subst. by eapply runs_abort.
      * inversion H; subst. by eapply runs_abort.
  - induction 1 as [s|x xs s s1 s2 r Hx _ IH|x xs s s1 r Hx Hr];
      simpl; unfold mbind, MF_bind.
    + done.
    + by rewrite Hx.
    + rewrite Hx. by destruct r as [[]|e|p].
Qed.

Lemma destroyedOnly_refl s : destroyedOnly s s.
Proof. split; [done|]. exists []. by rewrite app_nil_r. Qed.

Lemma destroyedOnly_trans s1 s2 s3 :
  destroyedOnly s1 s2 → destroyedOnly s2 s3 → destroyedOnly s1 s3.
Proof.
  intros [Hh1 (T1 & Ht1 & HT1)] [Hh2 (T2 & Ht2 & HT2)]. split; [congruence|].
  exists (T1 ++ T2)%list. split; [|by apply Forall_app].
  by rewrite Ht2, Ht1, <- app_assoc.
Qed.

Lemma native_destroyedOnly {A} (c : Call K) (f : World K → World K * result A) s :
  listOrIoctl c → destroyedOnly s (native c f s).1.
Proof.
  intros Hc. unfold native. destruct (f (world s)) as [w r]. split; [done|].
  exists [c]. split; [done|]. by constructor.
Qed.

Lemma getDatasets_destroyedOnly name dsType recurse depth s :
  destroyedOnly s (getDatasets name dsType recurse depth s).1.
Proof.
  destruct (native_list K name {[ dsType := true ]} recurse depth (world s))
    as [w r] eqn:Hlist.
  rewrite (getDatasets_run _ _ _ _ _ _ _ Hlist). split; [done|].
  eexists. split; [done|]. by constructor.
Qed.

Lemma GetDataset_destroyedOnly name s : destroyedOnly s (GetDataset name s).1.
Proof.
  rewrite GetDataset_state. split; [done|]. eexists. split; [done|]. by constructor.
Qed.

Lemma Children_destroyedOnly d depth s : destroyedOnly s (Children d depth s).1.
Proof.
  pose proof (getDatasets_destroyedOnly (Dataset.Name d) "all" true depth s) as H.
  unfold Children, mbind, M_bind.
  destruct (getDatasets _ _ _ _ _) as [s1 [datasets| |]]; try done.
  unfold sliceFrom. by destruct (decide _).
Qed.

(** [destroy] encodes the command and, if that succeeds, issues one ioctl
    on the dataset's name with the encoded command. *)
Lemma destroy_run name (deferFlag : bool) s :
  destroy name deferFlag s =
    match nvEncode K (destroyCommand deferFlag) with
    | Ret encoded => native (CallIoctl name encoded) (native_ioctl K name encoded) s
    | Err e => (s, Err e)
    | Panic p => (s, Panic p)
    end.
Proof.
  unfold destroy, mbind, M_bind, pure_result, ioctl.
  by destruct (nvEncode K _).
Qed.

Lemma destroy_destroyedOnly name (deferFlag : bool) s :
  destroyedOnly s (destroy name deferFlag s).1.
Proof.
  rewrite destroy_run. destruct (nvEncode K _); try apply destroyedOnly_refl.
  by apply native_destroyedOnly.
Qed.

Lemma forEach_destroyedOnly {A} (body : A → MF K unit) (xs : list A) :
  (∀ x s s' r, body x s = Some (s', r) → destroyedOnly s s') →
  ∀ s s' r, forEach body xs s = Some (s', r) → destroyedOnly s s'.
Proof.
  intros Hbody s s' r H. apply forEach_runs in H.
  induction H as [s|x xs s s1 s2 r Hx _ IH|x xs s s1 r Hx Hr].
  - apply destroyedOnly_refl.
  - eapply destroyedOnly_trans; [by eapply Hbody | done].
  - by eapply Hbody.
Qed.

(** One unfolding of [Destroy] with both recursion flags set. *)
Lemma Destroy_unfold fuel d opts :
  Recursive opts = true → RecursiveClones opts = true →
  Destroy (S fuel) d opts =
    ((children ← liftF (Children d 1);
      forEach (λ child, Destroy fuel child opts) children);;
     (clones ← liftF (pure_result (clonesOf d));
      cloneNames ← rangeKeys K clones;
      forEach (destroyClone fuel opts) cloneNames);;
     liftF (destroy (Dataset.Name d) (Defer opts))).
Proof. intros H1 H2. simpl. by rewrite H1, H2. Qed.

Lemma MF_bind_inv {A B} (m : MF K A) (k : A → MF K B) s s' (r : result B) :
  (m ≫= k) s = Some (s', r) →
  ∃ s1 r1, m s = Some (s1, r1) ∧
    match r1 with
    | Ret a => k a s1 = Some (s', r)
    | Err e => s' = s1 ∧ r = Err e
    | Panic p => s' = s1 ∧ r = Panic p
    end.
Proof.
  unfold mbind, MF_bind. destruct (m s) as [[s1 [a|e|p]]|]; intros H; try done.
  - by exists s1, (Ret a).
  - inversion H; subst. by exists s', (Err e).
  - inversion H; subst. by exists s', (Panic p).
Qed.

Local Abbreviation footprint m := (∀ s s' r, m s = Some (s', r) → destroyedOnly s s').
Local Abbreviation refines m1 m2 := (∀ s x, m1 s = Some x → m2 s = Some x).

Lemma bind_footprint {A B} (m : MF K A) (k : A → MF K B) :
  footprint m → (∀ a, footprint (k a)) → footprint (m ≫= k).
Proof.
  intros Hm Hk s s' r (s1 & r1 & H1 & H2)%MF_bind_inv.
  apply Hm in H1. destruct r1 as [a|e|p].
  - eapply destroyedOnly_trans; [done | by eapply Hk].
  - by destruct H2 as [-> _].
  - by destruct H2 as [-> _].
Qed.

Lemma liftF_footprint {A} (m : M K A) :
  (∀ s, destroyedOnly s (m s).1) → footprint (liftF m).
Proof. intros Hm s s' r H. inversion H as [H']. specialize (Hm s). by rewrite H' in Hm. Qed.

Lemma Destroy_footprint fuel : ∀ d opts, footprint (Destroy fuel d opts).
Proof.
  induction fuel as [|fuel IH]; intros d opts; [done|].
  cbn [Destroy]. apply bind_footprint; [|intros _; apply bind_footprint].
  - destruct (Recursive opts).
    + apply bind_footprint.
      * apply liftF_footprint, Children_destroyedOnly.
      * intros children. apply forEach_destroyedOnly. intros child. apply IH.
    + intros s s' r H. inversion H; subst. apply destroyedOnly_refl.
  - destruct (RecursiveClones opts).
    + apply bind_footprint; [|intros clones; apply bind_footprint].
      * apply liftF_footprint. intros s. apply destroyedOnly_refl.
      * intros s s' r H. inversion H; subst. apply destroyedOnly_refl.
      * intros cloneNames. apply forEach_destroyedOnly. intros cloneName.
        apply bind_footprint; [|intros clone; apply IH].
        apply liftF_footprint, GetDataset_destroyedOnly.
    + intros s s' r H. inversion H; subst. apply destroyedOnly_refl.
  - intros _. apply liftF_footprint, destroy_destroyedOnly.
Qed.

Lemma bind_refines {A B} (m1 m2 : MF K A) (k1 k2 : A → MF K B) :
  refines m1 m2 → (∀ a, refines (k1 a) (k2 a)) → refines (m1 ≫= k1) (m2 ≫= k2).
Proof.
  intros Hm Hk s x. unfold mbind, MF_bind.
  destruct (m1 s) as [[s1 r1]|] eqn:H1; [|by destruct x].
  rewrite (Hm _ _ H1). destruct r1; try done. apply Hk.
Qed.

Lemma forEach_refines {A} (body1 body2 : A → MF K unit) (xs : list A) :
  (∀ x, refines (body1 x) (body2 x)) → refines (forEach body1 xs) (forEach body2 xs).
Proof.
  intros Hbody. induction xs as [|x xs IH]; [done|].
  cbn [forEach]. apply bind_refines; [apply Hbody | intros _; apply IH].
Qed.

(** More fuel does not change an outcome that was reached. *)
Lemma Destroy_fuel_mono fuel : ∀ fuel' d opts,
  (fuel ≤ fuel')%nat → refines (Destroy fuel d opts) (Destroy fuel' d opts).
Proof.
  induction fuel as [|fuel IH]; intros fuel' d opts Hle; [done|].
  destruct fuel' as [|fuel']; [lia|]. assert (fuel ≤ fuel')%nat as Hle' by lia.
  cbn [Destroy]. apply bind_refines; [|intros _; apply bind_refines; [|done]].
  - destruct (Recursive opts); [|done].
    apply bind_refines; [done|]. intros children.
    apply forEach_refines. intros child. by apply IH.
  - destruct (RecursiveClones opts); [|done].
    apply bind_refines; [done|]. intros clones.
    apply bind_refines; [done|]. intros cloneNames.
    apply forEach_refines. intros cloneName.
    apply bind_refines; [done|]. intros clone. by apply IH.
Qed.

(** C1. Let the dataset carry its record, with its clone map, and let both
    [Recursive] and [RecursiveClones] be set.  A call of [Destroy] has the
    outcome [r] in state [s'] exactly when the following run does.
    First the children are listed at depth 1; a failure of the listing is
    the outcome.  Then each child is destroyed by [Destroy] with the same
    options, in listing order; the first child whose destroy does not
    succeed ends the call with that outcome and nothing more is executed.
    Then the clone names of the clone map, each exactly once, are fetched
    with [GetDataset] and destroyed by [Destroy] with the same options;
    again the first failure ends the call.  Only then the dataset's own
    [destroy] runs, with the [Defer] option as its flag, and its outcome
    is the outcome of the call.
    Whatever the outcome, the call has only listed and destroyed: the
    state reached is the one left by the last native call made, nothing is
    created again.  When the call succeeds, its last native call is the
    destroy command for the dataset's own name.
    The dataset's own [destroy] is the native destroy command: the command
    map has exactly the three entries [cmd] = [zfs_destroy], [version] = 0
    and [defer] = the [Defer] option; it is encoded and, unless the encoder
    fails (then that failure is returned and the kernel is not called),
    handed to one ioctl on the dataset's name. *)
Theorem Destroy_order fuel d opts (raw : ds.t) (props : dsProperties.t) s s' r :
  Recursive opts = true →
  RecursiveClones opts = true →
  Dataset.ds d = Some raw →
  ds.Properties raw = Some props →
  let clones := propClones.Value (dsProperties.Clones props) in
  (Destroy (S fuel) d opts s = Some (s', r) ↔
   ∃ s1 listing, Children d 1 s = (s1, listing) ∧
     match listing with
     | Ret children =>
         ∃ s2 r2, runs (λ child, Destroy fuel child opts) children s1 s2 r2 ∧
           match r2 with
           | Ret _ =>
               let cloneNames := rangeOrder K (world s2) clones in
               cloneNames ≡ₚ elements (dom clones) ∧
               ∃ s3 r3, runs (destroyClone fuel opts) cloneNames s2 s3 r3 ∧
                 match r3 with
                 | Ret _ => destroy (Dataset.Name d) (Defer opts) s3 = (s', r)
                 | _ => s' = s3 ∧ r = r3
                 end
           | _ => s' = s2 ∧ r = r2
           end
     | Err e => s' = s1 ∧ r = Err e
     | Panic p => s' = s1 ∧ r = Panic p
     end) ∧
  (Destroy (S fuel) d opts s = Some (s', r) →
   destroyedOnly s s' ∧
   (r = Ret tt →
    ∃ T encoded, nvEncode K (destroyCommand (Defer opts)) = Ret encoded ∧
      trace s' = (trace s ++ T ++ [CallIoctl (Dataset.Name d) encoded])%list)) ∧
  (let command := destroyCommand (Defer opts) in
   command !! "cmd" = Some (VString "zfs_destroy") ∧
   command !! "version" = Some (VUint64 0) ∧
   command !! "defer" = Some (VBool (Defer opts)) ∧
   (∀ key, is_Some (command !! key) → key ∈ ["cmd"; "version"; "defer"]) ∧
   ∀ s3, destroy (Dataset.Name d) (Defer opts) s3
         = match nvEncode K command with
           | Ret encoded =>
               native (CallIoctl (Dataset.Name d) encoded)
                      (native_ioctl K (Dataset.Name d) encoded) s3
           | Err e => (s3, Err e)
           | Panic p => (s3, Panic p)
           end).
Proof.
  intros Hrec Hcl Hds Hprops clones.
  assert (Hclones : clonesOf d = Ret clones)
    by (unfold clonesOf; by rewrite Hds, Hprops).
  assert (Hfwd : Destroy (S fuel) d opts s = Some (s', r) →
    ∃ s1 listing, Children d 1 s = (s1, listing) ∧
     match listing with
     | Ret children =>
         ∃ s2 r2, runs (λ child, Destroy fuel child opts) children s1 s2 r2 ∧
           match r2 with
           | Ret _ =>
               let cloneNames := rangeOrder K (world s2) clones in
               cloneNames ≡ₚ elements (dom clones) ∧
               ∃ s3 r3, runs (destroyClone fuel opts) cloneNames s2 s3 r3 ∧
                 match r3 with
                 | Ret _ => destroy (Dataset.Name d) (Defer opts) s3 = (s', r)
                 | _ => s' = s3 ∧ r = r3
                 end
           | _ => s' = s2 ∧ r = r2
           end
     | Err e => s' = s1 ∧ r = Err e
     | Panic p => s' = s1 ∧ r = Panic p
     end).
  { rewrite Destroy_unfold by done. intros H.
    apply MF_bind_inv in H as (s2 & r2 & Hphase1 & H).
    apply MF_bind_inv in Hphase1 as (s1 & listing & Hch & Hphase1).
    inversion Hch as [Hch']. exists s1, listing. split; [by destruct (Children d 1 s)|].
    destruct listing as [children|e|p].
    - apply forEach_runs in Hphase1. exists s2, r2. split; [done|].
      destruct r2 as [[]|e|p]; [|done|done].
      apply MF_bind_inv in H as (s3 & r3 & Hphase2 & H).
      apply MF_bind_inv in Hphase2 as (? & ? & Hc & Hphase2).
      unfold liftF, pure_result in Hc. rewrite Hclones in Hc. inversion Hc; subst.
      apply MF_bind_inv in Hphase2 as (? & ? & Hk & Hphase2).
      inversion Hk; subst. apply forEach_runs in Hphase2.
      split; [apply rangeOrder_perm|]. exists s3, r3. split; [done|].
      destruct r3 as [[]|e|p]; [|done|done].
      inversion H as [H']. by destruct (destroy _ _ _).
    - destruct Hphase1 as [-> ->]. by destruct H as [-> ->].
    - destruct Hphase1 as [-> ->]. by destruct H as [-> ->]. }
  split; [split; [done|]|split].
  - intros (s1 & listing & Hch & H). rewrite Destroy_unfold by done.
    unfold mbind, MF_bind, liftF at 1. rewrite Hch.
    destruct listing as [children|e|p];
      [|by destruct H as [-> ->]|by destruct H as [-> ->]].
    destruct H as (s2 & r2 & Hruns1%forEach_runs & H). rewrite Hruns1.
    destruct r2 as [[]|e|p];
      [|by destruct H as [-> ->]|by destruct H as [-> ->]].
    destruct H as (_ & s3 & r3 & Hruns2%forEach_runs & H).
    unfold liftF, pure_result, rangeKeys. rewrite Hclones, Hruns2.
    destruct r3 as [[]|e|p];
      [|by destruct H as [-> ->]|by destruct H as [-> ->]].
    by rewrite H.
  - intros H. split; [by eapply Destroy_footprint|]. intros ->.
    destruct (Hfwd H) as (s1 & listing & Hch & H1).
    pose proof (Children_destroyedOnly d 1 s) as F1. rewrite Hch in F1.
    destruct listing as [children|e|p]; [|by destruct H1|by destruct H1].
    destruct H1 as (s2 & r2 & Hruns1%forEach_runs & H2).
    destruct r2 as [[]|e|p]; [|by destruct H2|by destruct H2].
    destruct H2 as (_ & s3 & r3 & Hruns2%forEach_runs & H3).
    destruct r3 as [[]|e|p]; [|by destruct H3|by destruct H3].
    assert (F2 : destroyedOnly s1 s2).
    { eapply forEach_destroyedOnly; [|exact Hruns1].
      intros child. apply Destroy_footprint. }
    assert (F3 : destroyedOnly s2 s3).
    { eapply forEach_destroyedOnly; [|exact Hruns2].
      intros cloneName. apply bind_footprint; [|intros clone; apply Destroy_footprint].
      apply liftF_footprint, GetDataset_destroyedOnly. }
    destruct (destroyedOnly_trans _ _ _ F1 (destroyedOnly_trans _ _ _ F2 F3))
      as (_ & T & HT & _).
    rewrite destroy_run in H3.
    destruct (nvEncode K (destroyCommand (Defer opts))) as [encoded|e|p];
      [|done|done].
    exists T, encoded. split; [done|].
    unfold native in H3. destruct (native_ioctl K _ _ _) as [w r'].
    inversion H3; subst. simpl. by rewrite HT, app_assoc.
  - intros command. unfold command, destroyCommand.
    split; [by rewrite lookup_insert_eq|].
    split; [by rewrite lookup_insert_ne, lookup_insert_eq|].
    split; [by rewrite !lookup_insert_ne, lookup_singleton_eq|].
    split; [|intros s3; apply destroy_run].
    intros key [v Hv].
    destruct (decide (key = "cmd")) as [->|Hcmd]; [set_solver|].
    rewrite lookup_insert_ne in Hv by done.
    destruct (decide (key = "version")) as [->|Hversion]; [set_solver|].
    rewrite lookup_insert_ne in Hv by done.
    apply lookup_singleton_Some in Hv as [<- _]. set_solver.
Qed.

End Properties.

(** * The properties at work on the small kernel *)

(** Recursive destroy of [pool/a]: the child goes first, then the clone,
    then the dataset itself; only [pool] is left. *)
Example destroy_scenario_success :
  Destroy 3 (toyDataset poolA) destroyAll (toyState (scenarioWorld []))
  = Some (scenarioDestroyed, Ret tt).
Proof. vm_compute. reflexivity. Qed.

(** The same with [pool/a/b] busy: the call returns that failure after the
    child's destroy command; [pool/a] and [pool/c] are still there and no
    command was issued for them. *)
Example destroy_scenario_child_fails :
  Destroy 3 (toyDataset poolA) destroyAll (toyState (scenarioWorld ["pool/a/b"]))
  = Some (scenarioAborted, Err (Errno 16)).
Proof. vm_compute. reflexivity. Qed.

(** The deferred variant: the flag of the options reaches every command. *)
Example destroy_scenario_deferred :
  Destroy 3 (toyDataset poolA) destroyAllDeferred (toyState (scenarioWorld []))
  = Some (scenarioDestroyedDeferred, Ret tt).
Proof. vm_compute. reflexivity. Qed.

Lemma Destroy_order_witness :
  destroyedOnly (toyState (scenarioWorld [])) scenarioDestroyedDeferred ∧
  (∃ T encoded,
     nvEncode toyKernel (destroyCommand true) = Ret encoded ∧
     trace scenarioDestroyedDeferred = (T ++ [CallIoctl "pool/a" encoded])%list) ∧
  destroyCommand true !! "cmd" = Some (VString "zfs_destroy") ∧
  destroyCommand true !! "version" = Some (VUint64 0) ∧
  destroyCommand true !! "defer" = Some (VBool true).
Proof.
  destruct (Destroy_order toyKernel 2 (toyDataset poolA) destroyAllDeferred poolA
              (toyProperties 2 {[ "pool/c" := true ]} EmptyString 0 0 0)
              (toyState (scenarioWorld [])) scenarioDestroyedDeferred (Ret tt)
              eq_refl eq_refl eq_refl eq_refl) as (_ & H & Hcmd).
  destruct H as [H1 H2]; [vm_compute; reflexivity|].
  destruct Hcmd as (Hc & Hv & Hd & _).
  split; [exact H1|]. split; [exact (H2 eq_refl)|].
  split; [exact Hc|]. split; [exact Hv | exact Hd].
Defined.

Lemma GetDataset_cardinality_witness :
  GetDataset "pool/c" (toyState (scenarioWorld []))
  = (@Build_State toyKernel (scenarioWorld []) ∅ [listAll "pool/c" false 0],
     Ret (toyDataset (toyFilesystem "pool/c" ∅))).
Proof.
  apply (proj1 (proj2 (GetDataset_cardinality toyKernel "pool/c"
                         (toyState (scenarioWorld [])) (scenarioWorld [])
                         [Some (toyFilesystem "pool/c" ∅)]
                         [toyDataset (toyFilesystem "pool/c" ∅)]
                         eq_refl eq_refl))).
  reflexivity.
Defined.

(** [pool/fs], a filesystem without a native mountpoint, is mounted at
    [/pool/fs]. *)
Lemma dsToDataset_mountpoint_witness :
  ∃ d, dsToDataset toyKernel (Some (toyFilesystem "pool/fs" ∅)) = Ret d ∧
       Dataset.Mountpoint d = "/pool/fs".
Proof.
  destruct (dsToDataset_mountpoint toyKernel (toyFilesystem "pool/fs" ∅) _ _
              eq_refl eq_refl) as (d & Hd & Hty & Hempty & _).
  exists d. split; [exact Hd|]. apply Hempty; [reflexivity|].
  intros Hs. apply Hty in Hs. discriminate Hs.
Defined.

(** A snapshot whose native mountpoint is [/mnt/snap] keeps it: the
    mountpoint of a snapshot is not emptied. *)
Lemma snapshot_mountpoint_kept :
  rbind (dsToDataset toyKernel (Some snapWithMountpoint))
        (λ d, Ret (Dataset.Type_ d, Dataset.Mountpoint d))
  = Ret (DatasetSnapshot, "/mnt/snap") ∧
  "/mnt/snap" ≠ EmptyString.
Proof. split; [reflexivity | discriminate]. Qed.

Lemma Mount_empty_name_witness :
  Mount toyUnmarshalArgs EmptyString (toyState (scenarioWorld []))
  = (toyState (scenarioWorld []), Err (errorString "missing arg: name")).
Proof.
  exact (proj1 (Mount_empty_name toyKernel toyUnmarshalArgs EmptyString
                  (toyState (scenarioWorld []))
                  {| MountArgs.Name := EmptyString; MountArgs.Overlay := false |}
                  eq_refl eq_refl)).
Defined.

Lemma Children_empty_listing_panics_witness :
  Children (zeroDataset "pool/a") 0 (@Build_State silentKernel tt ∅ [])
  = (@Build_State silentKernel tt ∅ [CallList "pool/a" {[ "all" := true ]} true 0],
     Panic (SliceBoundsOutOfRange 1 0)).
Proof.
  exact (proj1 (Children_empty_listing_panics silentKernel (zeroDataset "pool/a") 0
                  (@Build_State silentKernel tt ∅ []) tt [] eq_refl) eq_refl).
Defined.

Lemma CreateVolume_mutates_map_witness :
  heap (CreateVolume "pool/vol" 1024 (Some 0%nat) callerState).1
  = <[0%nat := <["volsize" := VUint64 1024]> callerMap]> (heap callerState).
Proof.
  exact (proj1 (CreateVolume_mutates_map toyKernel "pool/vol" 1024 0 callerState
                  callerMap eq_refl)).
Defined.

(** The caller's [volsize] of 1 is replaced by 1024 and [compression] stays. *)
Example CreateVolume_overwrites_volsize :
  heap (CreateVolume "pool/vol" 1024 (Some 0%nat) callerState).1 !! 0%nat
  = Some {[ "volsize" := VUint64 1024; "compression" := VString "lz4" ]}.
Proof. vm_compute. reflexivity. Qed.

(** [CreateVolume] on the small kernel: the create call carries type 2
    ([dmuZFS]) and the dataset that comes back is a filesystem, with the
    volume size it was given. *)
Example CreateVolume_creates_filesystem :
  let out := CreateVolume "pool/vol" 1024 (Some 0%nat) callerState in
  trace out.1
  = [@CallCreate toyKernel "pool/vol" 2%N
       {[ "volsize" := VUint64 1024; "compression" := VString "lz4" ]};
     listAll "pool/vol" false 0] ∧
  rbind out.2 (λ d, Ret (Dataset.Type_ d, Dataset.Volsize d))
  = Ret (DatasetFilesystem, 1024%N) ∧
  dmuZVOL toyKernel = 3%N.
Proof. vm_compute. repeat split; reflexivity. Qed.

(** [snapshot("weekly", _)] on [tank/data]: pool [tank], snapshot name
    [tank/data@weekly], with and without the recursive flag. *)
Example Snapshot_weekly (recursive : bool) :
  trace (Snapshot (zeroDataset "tank/data") "weekly" recursive
           (toyState (scenarioWorld []))).1
  = [CallSnapshot "tank" ["tank/data@weekly"] ∅].
Proof. destruct recursive; vm_compute; reflexivity. Qed.

Example Rollback_either_way (destroyMoreRecent : bool) :
  trace (Rollback (zeroDataset "tank/data@weekly") destroyMoreRecent
           (toyState (scenarioWorld []))).1
  = [CallRollback "tank/data@weekly"].
Proof. destruct destroyMoreRecent; vm_compute; reflexivity. Qed.

(** A record with 7 bytes available and 3 written: [Written] is 7. *)
Example Written_is_available :
  rbind (dsToDataset toyKernel
           (Some (toyRecord "pool/fs" false (toyProperties 2 ∅ EmptyString 7 3 0))))
        (λ d, Ret (Dataset.Avail d, Dataset.Written d))
  = Ret (7%N, 7%N).
Proof. reflexivity. Qed.

(** * Further properties of the package *)

Section Further.
Context (K : Native).
Implicit Types (s : State K) (d : Dataset.t) (name : string).
#[local] Existing Instances M_ret M_bind MF_ret MF_bind.

(** *** Normalization *)

Lemma rmap_Ret {A B} (f : A → result B) (xs : list A) (ys : list B) :
  rmap f xs = Ret ys ↔ Forall2 (λ x y, f x = Ret y) xs ys.
Proof.
  split.
  - revert ys. induction xs as [|x xs IH]; simpl; intros ys H.
    + inversion H. constructor.
    + destruct (f x) as [y| |] eqn:Hx; simpl in H; try discriminate.
      destruct (rmap f xs) as [ys'| |]; simpl in H; try discriminate.
      inversion H; subst. constructor; [done | by apply IH].
  - induction 1 as [|x y xs ys Hx _ IH]; simpl; [done|].
    by rewrite Hx, IH.
Qed.

Lemma dsToDataset_Ret_or_panic (x : option ds.t) :
  (∃ d, dsToDataset K x = Ret d) ∨ dsToDataset K x = Panic NilDereference.
Proof.
  destruct x as [r|]; [|by right]. unfold dsToDataset.
  destruct (ds.DMUObjsetStats r), (ds.Properties r); eauto.
Qed.

Lemma rmap_dsToDataset_panics (xs : list (option ds.t)) :
  (∃ x, x ∈ xs ∧ ∀ d, dsToDataset K x ≠ Ret d) →
  rmap (dsToDataset K) xs = Panic NilDereference.
Proof.
  intros (x & Hin & Hx). induction xs as [|y xs IH]; [by apply elem_of_nil in Hin|].
  simpl. destruct (dsToDataset_Ret_or_panic y) as [[d Hd]| ->]; [|done].
  rewrite Hd. simpl. apply elem_of_cons in Hin as [->|Hin]; [by destruct (Hx d)|].
  by rewrite IH.
Qed.

(** X1. The type of a normalized dataset is one of the three type names.
    It is [snapshot] exactly when the record's snapshot flag is set, even
    for a snapshot of a volume; otherwise it is [volume] exactly when the
    native type number is the one registered under [zvol], and
    [filesystem] in every remaining case. *)
Theorem dsToDataset_type (r : ds.t) stats props :
  ds.DMUObjsetStats r = Some stats →
  ds.Properties r = Some props →
  let isZvol := dmuType_of_uint64 K (propUint64.Value (dsProperties.Type_ props))
                = default (dmuType_zero K) (dmuTypes K !! "zvol") in
  ∃ d, dsToDataset K (Some r) = Ret d ∧
    Dataset.Type_ d ∈ [DatasetSnapshot; DatasetVolume; DatasetFilesystem] ∧
    (Dataset.Type_ d = DatasetSnapshot ↔ dmuObjsetStats.IsSnapshot stats = true) ∧
    (Dataset.Type_ d = DatasetVolume ↔
       dmuObjsetStats.IsSnapshot stats = false ∧ isZvol) ∧
    (Dataset.Type_ d = DatasetFilesystem ↔
       dmuObjsetStats.IsSnapshot stats = false ∧ ¬ isZvol).
Proof.
  intros Hstats Hprops isZvol. unfold dsToDataset. rewrite Hstats, Hprops.
  eexists. split; [reflexivity|]. cbn [Dataset.Type_]. fold isZvol.
  destruct (dmuObjsetStats.IsSnapshot stats); [|destruct (decide isZvol)].
  - split; [set_solver|]. repeat split; try done; by intros [? _].
  - split; [set_solver|]. repeat split; try done; by intros [_ ?].
  - split; [set_solver|]. repeat split; try done. by intros [_ ?].
Qed.

(** X2. The compression of a normalized dataset is never empty: it is the
    native value, or [off] when the native value is empty. *)
Theorem dsToDataset_compression (r : ds.t) stats props :
  ds.DMUObjsetStats r = Some stats →
  ds.Properties r = Some props →
  let native := propStringWithSource.Value (dsProperties.Compression props) in
  ∃ d, dsToDataset K (Some r) = Ret d ∧
    Dataset.Compression d ≠ EmptyString ∧
    (native = EmptyString → Dataset.Compression d = "off") ∧
    (native ≠ EmptyString → Dataset.Compression d = native).
Proof.
  intros Hstats Hprops native. unfold dsToDataset. rewrite Hstats, Hprops.
  eexists. split; [reflexivity|]. cbn [Dataset.Compression]. fold native.
  destruct (decide (native = EmptyString)); by repeat split.
Qed.

(** X3. Normalization succeeds exactly on a non-nil record whose stats and
    properties are both present; on every other input it panics with a
    nil dereference.  It never returns an error. *)
Theorem dsToDataset_nil_panics (x : option ds.t) :
  ((∃ d, dsToDataset K x = Ret d) ↔
   ∃ r, x = Some r ∧ is_Some (ds.DMUObjsetStats r) ∧ is_Some (ds.Properties r)) ∧
  ((∀ d, dsToDataset K x ≠ Ret d) → dsToDataset K x = Panic NilDereference) ∧
  (∀ e, dsToDataset K x ≠ Err e).
Proof.
  split; [|split].
  - split.
    + intros [d Hd]. destruct x as [r|]; [|done]. exists r. unfold dsToDataset in Hd.
      destruct (ds.DMUObjsetStats r), (ds.Properties r); by eauto.
    + intros (r & -> & [stats Hs] & [props Hp]). unfold dsToDataset.
      rewrite Hs, Hp. by eexists.
  - intros H. destruct (dsToDataset_Ret_or_panic x) as [[d Hd]|]; [by destruct (H d)|done].
  - intros e. by destruct (dsToDataset_Ret_or_panic x) as [[d ->]| ->].
Qed.

(** X4. A dataset that comes out of normalization carries the record it
    was made from, under the record's name, with the record's origin and
    quota; its clone map can therefore be read without a nil dereference. *)
Theorem dsToDataset_keeps_record (x : option ds.t) d :
  dsToDataset K x = Ret d →
  ∃ r props,
    x = Some r ∧ ds.Properties r = Some props ∧
    Dataset.ds d = Some r ∧
    Dataset.Name d = ds.Name r ∧
    Dataset.Origin d = propString.Value (dsProperties.Origin props) ∧
    Dataset.Quota d = propUint64WithSource.Value (dsProperties.Quota props) ∧
    clonesOf d = Ret (propClones.Value (dsProperties.Clones props)).
Proof.
  destruct x as [r|]; [|done]. unfold dsToDataset.
  destruct (ds.DMUObjsetStats r) as [stats|] eqn:Hs; [|done].
  destruct (ds.Properties r) as [props|] eqn:Hp; [|done].
  intros H. inversion H; subst. exists r, props.
  repeat split; try done. unfold clonesOf. simpl. by rewrite Hp.
Qed.

(** *** Listing *)

(** X5. [getDatasets] makes exactly one native call, the listing with the
    type filter [{dsType: true}].  A failure of the listing is returned as
    it is.  When the listing succeeds, the call returns datasets exactly
    when every record normalizes, one dataset per record in the order of
    the listing, each carrying its record and name; a single record that
    is nil or lacks its stats or properties makes the whole call panic. *)
Theorem getDatasets_outcome name (dsType : string) (recurse : bool) (depth : N) s w r :
  native_list K name {[ dsType := true ]} recurse depth (world s) = (w, r) →
  let s' := Build_State w (heap s)
              (trace s ++ [CallList name {[ dsType := true ]} recurse depth]) in
  match r with
  | Err e => getDatasets name dsType recurse depth s = (s', Err e)
  | Panic p => getDatasets name dsType recurse depth s = (s', Panic p)
  | Ret dss =>
      (∀ datasets,
         getDatasets name dsType recurse depth s = (s', Ret datasets) ↔
         Forall2 (λ x d, dsToDataset K x = Ret d) dss datasets) ∧
      (∀ datasets,
         getDatasets name dsType recurse depth s = (s', Ret datasets) →
         length datasets = length dss ∧
         Forall2 (λ x d, ∃ rec, x = Some rec ∧ Dataset.ds d = Some rec ∧
                                Dataset.Name d = ds.Name rec) dss datasets) ∧
      ((∃ x, x ∈ dss ∧ ∀ d, dsToDataset K x ≠ Ret d) →
       getDatasets name dsType recurse depth s = (s', Panic NilDereference))
  end.
Proof.
  intros Hlist s'. rewrite (getDatasets_run _ _ _ _ _ _ _ _ Hlist). fold s'.
  destruct r as [dss|e|p]; try done. simpl.
  assert (Hiff : ∀ datasets,
    (s', rmap (dsToDataset K) dss) = (s', Ret datasets) ↔
    Forall2 (λ x d, dsToDataset K x = Ret d) dss datasets).
  { intros datasets. rewrite <- rmap_Ret. split; [by inversion 1 | by intros ->]. }
  split; [done|]. split.
  - intros datasets H%Hiff. split; [symmetry; by eapply Forall2_length|].
    eapply Forall2_impl; [done|]. simpl. intros x d Hx.
    destruct (dsToDataset_keeps_record _ _ Hx) as (rec & props & -> & _ & ? & ? & _).
    by exists rec.
  - intros H. by rewrite rmap_dsToDataset_panics.
Qed.

(** X6. When the listing behind [GetDataset] fails, [GetDataset] returns
    that failure after the one listing call; the count error is reserved
    for listings that succeed. *)
Theorem GetDataset_listing_failure name s w (e : error) :
  native_list K name {[ "all" := true ]} false 0 (world s) = (w, Err e) →
  GetDataset name s
  = (Build_State w (heap s) (trace s ++ [CallList name {[ "all" := true ]} false 0]),
     Err e).
Proof.
  intros Hlist. unfold GetDataset, mbind, M_bind.
  by rewrite (getDatasets_run _ _ _ _ _ _ _ _ Hlist).
Qed.

(** *** Creation and cloning *)

(** X7. [CreateFilesystem] first issues the native create, of type
    [dmuZFS], with the contents of the caller's map (a nil map reads as
    empty and is accepted).  If the create fails, the failure is returned
    and no lookup is made; if it succeeds, the result is that of
    [GetDataset] on the name, run after the create.  The caller's maps are
    never written. *)
Theorem CreateFilesystem_outcome name (properties : mapref) s w (r : result unit) :
  native_create K name (dmuZFS K) (mapContents properties s) (world s) = (w, r) →
  let s1 := Build_State w (heap s)
              (trace s ++ [CallCreate name (dmuZFS K) (mapContents properties s)]) in
  CreateFilesystem name properties s
  = match r with
    | Ret _ => GetDataset name s1
    | Err e => (s1, Err e)
    | Panic p => (s1, Panic p)
    end ∧
  heap (CreateFilesystem name properties s).1 = heap s.
Proof.
  intros Hcreate s1.
  assert (H : CreateFilesystem name properties s
              = match r with
                | Ret _ => GetDataset name s1
                | Err e => (s1, Err e)
                | Panic p => (s1, Panic p)
                end).
  { unfold CreateFilesystem, createDataset, mbind, M_bind, create, native.
    rewrite Hcreate. by destruct r. }
  split; [done|]. rewrite H. destruct r; try done. by rewrite GetDataset_state.
Qed.

(** X8. [Clone] issues the native clone of the new name with the dataset's
    own name as origin and the contents of the caller's map.  If the clone
    fails, the failure is returned and no lookup is made; if it succeeds,
    the result is that of [GetDataset] on the new name.  The caller's maps
    are never written. *)
Theorem Clone_outcome d name (properties : mapref) s w (r : result unit) :
  native_clone K name (Dataset.Name d) (mapContents properties s) (world s) = (w, r) →
  let s1 := Build_State w (heap s)
              (trace s ++ [CallClone name (Dataset.Name d) (mapContents properties s)]) in
  Clone d name properties s
  = match r with
    | Ret _ => GetDataset name s1
    | Err e => (s1, Err e)
    | Panic p => (s1, Panic p)
    end ∧
  heap (Clone d name properties s).1 = heap s.
Proof.
  intros Hclone s1.
  assert (H : Clone d name properties s
              = match r with
                | Ret _ => GetDataset name s1
                | Err e => (s1, Err e)
                | Panic p => (s1, Panic p)
                end).
  { unfold Clone, mbind, M_bind, clone, native. rewrite Hclone. by destruct r. }
  split; [done|]. rewrite H. destruct r; try done. by rewrite GetDataset_state.
Qed.

(** *** The destroy command *)

(** X9. When the encoder rejects the destroy command, [destroy] returns
    the encoder's error without calling the kernel, and [Destroy] with
    those options never succeeds, whatever the dataset, the recursion
    flags and the state. *)
Theorem Destroy_encode_failure opts (e : error) :
  nvEncode K (destroyCommand (Defer opts)) = Err e →
  (∀ name s, destroy name (Defer opts) s = (s, Err e)) ∧
  (∀ fuel d s s' r, Destroy fuel d opts s = Some (s', r) → r ≠ Ret tt).
Proof.
  intros Henc.
  assert (Hd : ∀ name s, destroy name (Defer opts) s = (s, Err e)).
  { intros name s. by rewrite destroy_run, Henc. }
  split; [done|]. intros [|fuel] d s s' r H; [done|].
  cbn [Destroy] in H.
  apply MF_bind_inv in H as (s1 & r1 & _ & H). destruct r1; [|by destruct H as [_ ->]..].
  apply MF_bind_inv in H as (s2 & r2 & _ & H). destruct r2; [|by destruct H as [_ ->]..].
  unfold liftF in H. rewrite Hd in H. by inversion H.
Qed.

(** *** Snapshot *)

Lemma firstSegment_no_slash (str : string) :
  "/"%char ∉ list_ascii_of_string (firstSegment str).
Proof.
  induction str as [|c str IH]; simpl; [by apply not_elem_of_nil|].
  destruct (decide (c = "/"%char)); simpl; [by apply not_elem_of_nil|].
  by apply not_elem_of_cons.
Qed.

Lemma firstSegment_prefix (str : string) :
  str = firstSegment str ∨ ∃ rest, str = (firstSegment str ++ "/" ++ rest)%string.
Proof.
  induction str as [|c str IH]; simpl; [by left|].
  destruct (decide (c = "/"%char)) as [->|]; simpl.
  - right. by exists str.
  - destruct IH as [IH|[rest IH]]; [left|right; exists rest]; simpl.
    + congruence.
    + rewrite IH at 1. reflexivity.
Qed.

(** X10. [Snapshot] issues exactly one native call and does not fail on
    its own: its outcome is the outcome of that call.  The pool argument
    of the call contains no [/], and the dataset's name is either the pool
    itself or the pool followed by [/] and more. *)
Theorem Snapshot_pool_argument d name (recursive : bool) s :
  ∃ zpool,
    ("/"%char ∉ list_ascii_of_string zpool) ∧
    (Dataset.Name d = zpool ∨ ∃ rest, Dataset.Name d = (zpool ++ "/" ++ rest)%string) ∧
    trace (Snapshot d name recursive s).1
    = (trace s ++ [CallSnapshot zpool [(Dataset.Name d ++ "@" ++ name)%string] ∅])%list ∧
    (Snapshot d name recursive s).2
    = (native_snapshot K zpool [(Dataset.Name d ++ "@" ++ name)%string] ∅ (world s)).2.
Proof.
  exists (firstSegment (Dataset.Name d)).
  split; [apply firstSegment_no_slash|]. split; [apply firstSegment_prefix|].
  unfold Snapshot, mbind, M_bind, index.
  destruct (Split_firstSegment (Dataset.Name d)) as [rest ->]. simpl.
  unfold snapshot, native. by destruct (native_snapshot _ _ _ _ _).
Qed.

(** *** The Mount handler *)

Section FurtherHandler.
Context {Request : Type} (UnmarshalArgs : Request → result MountArgs.t).

(** X11. For a request whose arguments decode with a non-empty name, the
    handler looks the dataset up by that name.  If the lookup fails, the
    handler returns that failure and no mount is issued.  If it succeeds,
    the handler issues one mount, for the name of the dataset that the
    lookup returned and with the overlay flag of the request, and returns
    the outcome of the mount.  A request that does not decode is answered
    with the decoder's failure, without any native call. *)
Theorem Mount_outcome (req : Request) s (args : MountArgs.t) s1 (r : result Dataset.t) :
  UnmarshalArgs req = Ret args →
  MountArgs.Name args ≠ EmptyString →
  GetDataset (MountArgs.Name args) s = (s1, r) →
  match r with
  | Ret found =>
      Mount UnmarshalArgs req s = Dataset_Mount found (MountArgs.Overlay args) s1 ∧
      trace (Mount UnmarshalArgs req s).1
      = (trace s ++ [CallList (MountArgs.Name args) {[ "all" := true ]} false 0;
                     CallMount (Dataset.Name found) (MountArgs.Overlay args)])%list
  | Err e =>
      Mount UnmarshalArgs req s = (s1, Err e) ∧
      trace s1 = (trace s ++ [CallList (MountArgs.Name args) {[ "all" := true ]} false 0])%list
  | Panic p =>
      Mount UnmarshalArgs req s = (s1, Panic p) ∧
      trace s1 = (trace s ++ [CallList (MountArgs.Name args) {[ "all" := true ]} false 0])%list
  end ∧
  (∀ (req' : Request) s0 e,
     UnmarshalArgs req' = Err e → Mount UnmarshalArgs req' s0 = (s0, Err e)).
Proof.
  intros Hargs Hname Hget.
  assert (Htrace : trace s1
    = (trace s ++ [CallList (MountArgs.Name args) {[ "all" := true ]} false 0])%list).
  { pose proof (GetDataset_state K (MountArgs.Name args) s) as H.
    rewrite Hget in H. simpl in H. by rewrite H. }
  assert (Hrun : Mount UnmarshalArgs req s
    = match r with
      | Ret found => Dataset_Mount found (MountArgs.Overlay args) s1
      | Err e => (s1, Err e)
      | Panic p => (s1, Panic p)
      end).
  { unfold Mount, mbind, M_bind, pure_result. rewrite Hargs.
    destruct (decide _); [done|]. rewrite Hget. by destruct r. }
  split.
  - destruct r as [found|e|p]; try done. split; [done|]. rewrite Hrun.
    unfold Dataset_Mount, native. destruct (native_mount _ _ _ _). simpl.
    by rewrite Htrace, <- app_assoc.
  - intros req' s0 e He. unfold Mount, mbind, M_bind, pure_result. by rewrite He.
Qed.

End FurtherHandler.

(** *** [propClones.value] *)

Lemma fold_first_slot (order l : list string) :
  l ≠ [] →
  fold_left
    (λ acc clone,
       rbind acc (λ clones : list string,
         if decide (0 < length clones)%nat then Ret (<[0%nat := clone]> clones)
         else Panic (IndexOutOfRange 0 (length clones))))
    order (Ret l)
  = Ret (match last order with Some k => <[0%nat := k]> l | None => l end).
Proof.
  revert l. induction order as [|k order IH]; intros l Hl; [done|].
  cbn [fold_left rbind]. destruct l as [|x l]; [done|].
  rewrite decide_True by (simpl; lia). rewrite IH by done.
  rewrite last_cons. by destruct (last order).
Qed.

(** X12. [propClones.value] never fails and returns one slot per clone of
    the map, but only the first slot receives a clone name (a key of the
    map): every further slot is the empty string.  So for a map with two
    or more clones the names are not all returned. *)
Theorem propClones_value_first_slot_only (p : propClones.t) s :
  ∃ l, propClones_value p s = (s, Ret l) ∧
    length l = size (propClones.Value p) ∧
    (∀ i, (0 < i < size (propClones.Value p))%nat → l !! i = Some EmptyString) ∧
    (propClones.Value p ≠ ∅ →
       ∃ k, l !! 0%nat = Some k ∧ is_Some (propClones.Value p !! k)).
Proof.
  set (m := propClones.Value p).
  set (order := rangeOrder K (world s) m).
  assert (Hperm : order ≡ₚ elements (dom m)) by apply rangeOrder_perm.
  assert (Hlen : length order = size m).
  { rewrite Hperm. rewrite <- (size_dom (D := gset string)). done. }
  destruct (decide (size m = 0%nat)) as [Hz|Hnz].
  - exists []. assert (order = []) as Ho by (apply length_zero_iff_nil; lia).
    unfold propClones_value. fold m order. rewrite Ho, Hz. simpl.
    split; [done|]. split; [done|]. split; [intros i; lia|].
    intros Hne. by apply map_size_non_empty_iff in Hne.
  - destruct (last order) as [k|] eqn:Hlast;
      [|apply last_None in Hlast; rewrite Hlast in Hlen; simpl in Hlen; lia].
    exists (<[0%nat := k]> (replicate (size m) EmptyString)).
    unfold propClones_value. fold m order.
    rewrite fold_first_slot, Hlast
      by (intros H%(f_equal length); rewrite length_replicate in H; simpl in H; lia).
    split; [done|]. split; [by rewrite length_insert, length_replicate|].
    split.
    + intros i Hi. rewrite list_lookup_insert_ne by lia.
      apply lookup_replicate_2. lia.
    + intros _. exists k. split.
      * apply list_lookup_insert_eq. rewrite length_replicate. lia.
      * apply elem_of_dom. apply last_Some_elem_of in Hlast.
        rewrite Hperm in Hlast. by apply elem_of_elements in Hlast.
Qed.

(** *** More on the recursive destroy *)

Lemma MF_bind_ext {A B} (m1 m2 : MF K A) (k1 k2 : A → MF K B) :
  (∀ s, m1 s = m2 s) → (∀ a s, k1 a s = k2 a s) → ∀ s, (m1 ≫= k1) s = (m2 ≫= k2) s.
Proof.
  intros Hm Hk s. unfold mbind, MF_bind. rewrite Hm.
  destruct (m2 s) as [[s1 [a| |]]|]; auto.
Qed.

Lemma forEach_ext {A} (body1 body2 : A → MF K unit) (xs : list A) :
  (∀ x s, body1 x s = body2 x s) → ∀ s, forEach body1 xs s = forEach body2 xs s.
Proof.
  intros Hbody. induction xs as [|x xs IH]; [done|]. cbn [forEach].
  apply MF_bind_ext; [apply Hbody | intros _; apply IH].
Qed.

(** X13. The [ForceUnmount] option has no effect on [Destroy]: the same
    call with the option set to any value has the same outcome, in the
    same state, after the same native calls. *)
Theorem Destroy_ignores_ForceUnmount fuel : ∀ d opts (forceUnmount : bool) s,
  Destroy fuel d opts s
  = Destroy fuel d {| Recursive := Recursive opts;
                      RecursiveClones := RecursiveClones opts;
                      ForceUnmount := forceUnmount;
                      Defer := Defer opts |} s.
Proof.
  induction fuel as [|fuel IH]; intros d opts b s; [done|].
  remember {| Recursive := Recursive opts; RecursiveClones := RecursiveClones opts;
              ForceUnmount := b; Defer := Defer opts |} as opts' eqn:Ho.
  assert (Recursive opts' = Recursive opts) as Hr by (by subst).
  assert (RecursiveClones opts' = RecursiveClones opts) as Hc by (by subst).
  assert (Defer opts' = Defer opts) as Hd by (by subst).
  assert (IH' : ∀ child s0, Destroy fuel child opts s0 = Destroy fuel child opts' s0)
    by (intros; subst; apply IH).
  clear Ho IH. cbn [Destroy]. rewrite Hr, Hc, Hd.
  apply MF_bind_ext; [|intros _; apply MF_bind_ext; [|done]].
  - destruct (Recursive opts); [|done].
    apply MF_bind_ext; [done|]. intros children. apply forEach_ext.
    intros child s0. apply IH'.
  - destruct (RecursiveClones opts); [|done].
    apply MF_bind_ext; [done|]. intros clones.
    apply MF_bind_ext; [done|]. intros cloneNames. apply forEach_ext.
    intros cloneName. apply MF_bind_ext; [done|]. intros clone s0. apply IH'.
Qed.

(** X14. Whatever the options and the outcome, [Destroy] only lists and
    destroys: every native call it makes is a listing or a destroy
    command (never a create, clone, rollback, snapshot or mount), the
    calls made before it stay in the record, and the maps of the callers
    are left as they were. *)
Theorem Destroy_only_lists_and_destroys fuel d opts s s' (r : result unit) :
  Destroy fuel d opts s = Some (s', r) →
  heap s' = heap s ∧
  ∃ T, trace s' = (trace s ++ T)%list ∧
    ∀ c, c ∈ T →
      (∃ name types recurse depth, c = CallList name types recurse depth) ∨
      (∃ name request, c = CallIoctl name request).
Proof.
  intros H. destruct (Destroy_footprint K fuel d opts s s' r H) as (Hh & T & HT & Hall).
  split; [done|]. exists T. split; [done|]. intros c Hc.
  rewrite Forall_forall in Hall. specialize (Hall c Hc).
  destruct c; try done; [left|right]; by eauto.
Qed.

(** X15. A dataset without its record (one not obtained from a listing)
    cannot be destroyed with [RecursiveClones]: the call never succeeds,
    because reading the clone map panics before the dataset's own destroy.
    Without [Recursive] the panic comes first, before any native call. *)
Theorem Destroy_nil_record fuel d opts s s' (r : result unit) :
  Dataset.ds d = None →
  RecursiveClones opts = true →
  Destroy fuel d opts s = Some (s', r) →
  r ≠ Ret tt ∧
  (Recursive opts = false → s' = s ∧ r = Panic NilDereference).
Proof.
  intros Hds Hcl H. destruct fuel as [|fuel]; [done|].
  cbn [Destroy] in H. rewrite Hcl in H.
  assert (Hclones : clonesOf d = Panic NilDereference)
    by (unfold clonesOf; by rewrite Hds).
  apply MF_bind_inv in H as (s1 & r1 & Hp1 & H).
  assert (Hp2 : ∀ s0 s0' r0,
    (clones ← liftF (pure_result (clonesOf d));
     cloneNames ← rangeKeys K clones;
     forEach (λ cloneName, clone ← liftF (GetDataset cloneName);
                           Destroy fuel clone opts) cloneNames) s0 = Some (s0', r0) →
    s0' = s0 ∧ r0 = Panic NilDereference).
  { intros s0 s0' r0. unfold mbind, MF_bind, liftF, pure_result at 1.
    rewrite Hclones. by inversion 1. }
  split.
  - destruct r1; [|by destruct H as [_ ->]..].
    apply MF_bind_inv in H as (s2 & r2 & [-> ->]%Hp2 & H). by destruct H as [_ ->].
  - intros Hrec. rewrite Hrec in Hp1. inversion Hp1; subst.
    apply MF_bind_inv in H as (s2 & r2 & [-> ->]%Hp2 & H). by destruct H.
Qed.

Lemma children_phase_footprint fuel d opts s s' (r : result unit) :
  (if Recursive opts
   then children ← liftF (Children d 1);
        forEach (λ child, Destroy fuel child opts) children
   else mret tt) s = Some (s', r) →
  destroyedOnly s s'.
Proof.
  destruct (Recursive opts).
  - revert s s' r. apply bind_footprint.
    + apply liftF_footprint, Children_destroyedOnly.
    + intros children. apply forEach_destroyedOnly. intros child.
      apply Destroy_footprint.
  - intros H. inversion H; subst. apply destroyedOnly_refl.
Qed.

Lemma clones_phase_footprint fuel d opts s s' (r : result unit) :
  (if RecursiveClones opts
   then clones ← liftF (pure_result (clonesOf d));
        cloneNames ← rangeKeys K clones;
        forEach (λ cloneName, clone ← liftF (GetDataset cloneName);
                              Destroy fuel clone opts) cloneNames
   else mret tt) s = Some (s', r) →
  destroyedOnly s s'.
Proof.
  destruct (RecursiveClones opts).
  - revert s s' r. apply bind_footprint; [|intros clones; apply bind_footprint].
    + apply liftF_footprint. intros s. apply destroyedOnly_refl.
    + intros s s' r H. inversion H; subst. apply destroyedOnly_refl.
    + intros cloneNames. apply forEach_destroyedOnly. intros cloneName.
      apply bind_footprint; [|intros clone; apply Destroy_footprint].
      apply liftF_footprint, GetDataset_destroyedOnly.
  - intros H. inversion H; subst. apply destroyedOnly_refl.
Qed.

(** A successful [Destroy] ends with the destroy command on its own name. *)
Lemma Destroy_success_last fuel d opts s s' :
  Destroy fuel d opts s = Some (s', Ret tt) →
  ∃ T encoded,
    nvEncode K (destroyCommand (Defer opts)) = Ret encoded ∧
    trace s' = (trace s ++ T ++ [CallIoctl (Dataset.Name d) encoded])%list.
Proof.
  destruct fuel as [|fuel]; [done|]. cbn [Destroy]. intros H.
  apply MF_bind_inv in H as (s1 & r1 & Hp1 & H). destruct r1; [|by destruct H..].
  apply MF_bind_inv in H as (s2 & r2 & Hp2 & H). destruct r2; [|by destruct H..].
  destruct (children_phase_footprint _ _ _ _ _ _ Hp1) as (_ & T1 & HT1 & _).
  destruct (clones_phase_footprint _ _ _ _ _ _ Hp2) as (_ & T2 & HT2 & _).
  unfold liftF in H. rewrite destroy_run in H.
  destruct (nvEncode K (destroyCommand (Defer opts))) as [encoded| |]; [|done..].
  exists (T1 ++ T2)%list, encoded. split; [done|].
  unfold native in H. destruct (native_ioctl K _ _ _) as [w r'].
  inversion H; subst. simpl. by rewrite HT2, HT1, <- !app_assoc.
Qed.

Lemma runs_success_mem {A} (body : A → MF K unit) (ev : A → Call K)
    (xs : list A) s s' :
  (∀ x sa sb, body x sa = Some (sb, Ret tt) →
     ∃ T, trace sb = (trace sa ++ T)%list ∧ ev x ∈ T) →
  runs body xs s s' (Ret tt) →
  ∃ T, trace s' = (trace s ++ T)%list ∧ ∀ x, x ∈ xs → ev x ∈ T.
Proof.
  intros Hbody Hruns. remember (Ret tt) as r eqn:Hr.
  induction Hruns as [s|x xs s s1 s2 r Hx _ IH|x xs s s1 r Hx Hne]; subst.
  - exists []. split; [by rewrite app_nil_r|]. by intros x ?%elem_of_nil.
  - destruct (Hbody _ _ _ Hx) as (T1 & HT1 & Hev). destruct (IH eq_refl Hbody) as (T2 & HT2 & Hall).
    exists (T1 ++ T2)%list. split; [by rewrite HT2, HT1, <- app_assoc|].
    intros y [->|Hy]%elem_of_cons; apply elem_of_app; [by left | right; by apply Hall].
  - done.
Qed.

(** X16. When a [Destroy] call succeeds, its last native call is the
    destroy command for the dataset's own name.  With [Recursive], the
    destroy command of every child of the depth-1 listing was issued
    before it; with [RecursiveClones], every clone name of the clone map
    was looked up before it. *)
Theorem Destroy_success_trace fuel d opts s s' :
  Destroy (S fuel) d opts s = Some (s', Ret tt) →
  ∃ T encoded,
    nvEncode K (destroyCommand (Defer opts)) = Ret encoded ∧
    trace s' = (trace s ++ T ++ [CallIoctl (Dataset.Name d) encoded])%list ∧
    (Recursive opts = true →
       ∃ s1 children, Children d 1 s = (s1, Ret children) ∧
         ∀ child, child ∈ children → CallIoctl (Dataset.Name child) encoded ∈ T) ∧
    (RecursiveClones opts = true →
       ∃ clones, clonesOf d = Ret clones ∧
         ∀ cloneName, is_Some (clones !! cloneName) →
           CallList cloneName {[ "all" := true ]} false 0 ∈ T).
Proof.
  cbn [Destroy]. intros H.
  apply MF_bind_inv in H as (s2 & r1 & Hp1 & H). destruct r1 as [[]| |]; [|by destruct H..].
  apply MF_bind_inv in H as (s3 & r2 & Hp2 & H). destruct r2 as [[]| |]; [|by destruct H..].
  unfold liftF in H. rewrite destroy_run in H.
  destruct (nvEncode K (destroyCommand (Defer opts))) as [encoded| |] eqn:Henc; [|done..].
  assert (Hown : trace s' = (trace s3 ++ [CallIoctl (Dataset.Name d) encoded])%list).
  { unfold native in H. destruct (native_ioctl K _ _ _) as [w r']. by inversion H. }
  assert (H1 : ∃ T1, trace s2 = (trace s ++ T1)%list ∧
    (Recursive opts = true →
       ∃ s1 children, Children d 1 s = (s1, Ret children) ∧
         ∀ child, child ∈ children → CallIoctl (Dataset.Name child) encoded ∈ T1)).
  { destruct (Recursive opts).
    - apply MF_bind_inv in Hp1 as (s1 & rl & Hch & Hp1). inversion Hch as [Hch'].
      destruct rl as [children| |]; [|by destruct Hp1..].
      apply forEach_runs in Hp1.
      apply (runs_success_mem _ (λ child, CallIoctl (Dataset.Name child) encoded))
        in Hp1 as (Tc & HTc & Hall).
      + destruct (Children_destroyedOnly K d 1 s) as (_ & Tl & HTl & _).
        rewrite Hch' in HTl. simpl in HTl.
        exists (Tl ++ Tc)%list. split; [by rewrite HTc, HTl, <- app_assoc|].
        intros _. exists s1, children. split; [by destruct (Children d 1 s)|].
        intros child Hin. apply elem_of_app. right. by apply Hall.
      + intros child sa sb (T & enc' & Henc' & HT)%Destroy_success_last.
        rewrite Henc in Henc'. inversion Henc'; subst.
        eexists. split; [done|]. apply elem_of_app. right. by apply elem_of_cons; left.
    - inversion Hp1; subst. exists []. split; [by rewrite app_nil_r | done]. }
  assert (H2 : ∃ T2, trace s3 = (trace s2 ++ T2)%list ∧
    (RecursiveClones opts = true →
       ∃ clones, clonesOf d = Ret clones ∧
         ∀ cloneName, is_Some (clones !! cloneName) →
           CallList cloneName {[ "all" := true ]} false 0 ∈ T2)).
  { destruct (RecursiveClones opts).
    - apply MF_bind_inv in Hp2 as (sa & rc & Hc & Hp2). inversion Hc as [[Hsa Hrc]].
      destruct rc as [clones| |]; [|by destruct Hp2..]. subst sa.
      apply MF_bind_inv in Hp2 as (sb & rk & Hk & Hp2). inversion Hk; subst.
      apply forEach_runs in Hp2.
      apply (runs_success_mem _ (λ cloneName, CallList cloneName {[ "all" := true ]} false 0))
        in Hp2 as (Tk & HTk & Hall).
      + exists Tk. split; [done|]. intros _. exists clones. split; [done|].
        intros cloneName Hin. apply Hall.
        rewrite (rangeOrder_perm K). by apply elem_of_elements, elem_of_dom.
      + intros cloneName sx sy Hbody.
        apply MF_bind_inv in Hbody as (sc & rg & Hg & Hbody). inversion Hg as [Hg'].
        destruct rg as [clone| |]; [|by destruct Hbody..].
        destruct (Destroy_footprint K _ _ _ _ _ _ Hbody) as (_ & T & HT & _).
        pose proof (GetDataset_state K cloneName sx) as Hst. rewrite Hg' in Hst.
        simpl in Hst. rewrite Hst in HT. simpl in HT.
        eexists. split; [by rewrite HT, <- app_assoc|]. by apply elem_of_cons; left.
    - inversion Hp2; subst. exists []. split; [by rewrite app_nil_r | done]. }
  destruct H1 as (T1 & HT1 & Hchildren), H2 as (T2 & HT2 & Hclones).
  exists (T1 ++ T2)%list, encoded. split; [done|].
  split; [by rewrite Hown, HT2, HT1, <- !app_assoc|]. split.
  - intros Hrec. destruct (Hchildren Hrec) as (s1 & children & Hch & Hall).
    exists s1, children. split; [done|]. intros child Hin.
    apply elem_of_app. left. by apply Hall.
  - intros Hcl. destruct (Hclones Hcl) as (clones & Hc & Hall).
    exists clones. split; [done|]. intros cloneName Hin.
    apply elem_of_app. right. by apply Hall.
Qed.

(** X17. A dataset whose depth-1 listing returns only itself and whose
    clone map is empty is destroyed by [Destroy] with both recursion flags
    in one step of the recursion: after the listing, the call is the
    dataset's own [destroy], and its outcome is that of [destroy]. *)
Theorem Destroy_leaf fuel d opts s w (x : option ds.t) (self : Dataset.t) :
  Recursive opts = true →
  RecursiveClones opts = true →
  native_list K (Dataset.Name d) {[ "all" := true ]} true 1 (world s) = (w, Ret [x]) →
  dsToDataset K x = Ret self →
  clonesOf d = Ret ∅ →
  Destroy (S fuel) d opts s
  = Some (destroy (Dataset.Name d) (Defer opts)
            (Build_State w (heap s)
               (trace s ++ [CallList (Dataset.Name d) {[ "all" := true ]} true 1]))).
Proof.
  intros Hrec Hcl Hlist Hself Hclones. cbn [Destroy]. rewrite Hrec, Hcl.
  assert (Hch : Children d 1 s
    = (Build_State w (heap s)
         (trace s ++ [CallList (Dataset.Name d) {[ "all" := true ]} true 1]), Ret [])).
  { unfold Children, mbind, M_bind. rewrite (getDatasets_run _ _ _ _ _ _ _ _ Hlist).
    simpl. by rewrite Hself. }
  assert (Hno : ∀ w0, rangeOrder K w0 ∅ = []).
  { intros w0. apply Permutation_nil_r. rewrite (rangeOrder_perm K).
    by rewrite dom_empty_L, elements_empty. }
  unfold mbind, MF_bind, liftF, pure_result, rangeKeys.
  rewrite Hch, Hclones. simpl. by rewrite Hno.
Qed.

End Further.

(** * The further properties at work on the small kernel *)

(** A snapshot of a volume is typed [snapshot], not [volume]. *)
Lemma dsToDataset_type_witness :
  ∃ d, dsToDataset toyKernel (Some toyVolumeSnapshot) = Ret d ∧
       Dataset.Type_ d = DatasetSnapshot.
Proof.
  destruct (dsToDataset_type toyKernel toyVolumeSnapshot _ _ eq_refl eq_refl)
    as (d & Hd & _ & Hsnap & _).
  exists d. split; [exact Hd|]. apply Hsnap. reflexivity.
Defined.

Lemma dsToDataset_compression_witness :
  ∃ d, dsToDataset toyKernel (Some toyVolume) = Ret d ∧ Dataset.Compression d = "off".
Proof.
  destruct (dsToDataset_compression toyKernel toyVolume _ _ eq_refl eq_refl)
    as (d & Hd & _ & Hoff & _).
  exists d. split; [exact Hd|]. apply Hoff. reflexivity.
Defined.

(** A record that lacks its properties does not normalize. *)
Example dsToDataset_without_properties :
  dsToDataset toyKernel (Some recordWithoutProperties) = Panic NilDereference.
Proof. reflexivity. Qed.

Lemma dsToDataset_keeps_record_witness :
  clonesOf (toyDataset poolA) = Ret {[ "pool/c" := true ]}.
Proof.
  destruct (dsToDataset_keeps_record toyKernel (Some poolA) (toyDataset poolA) eq_refl)
    as (r & props & Hr & Hprops & _ & _ & _ & _ & Hclones).
  injection Hr as <-. injection Hprops as <-. exact Hclones.
Defined.

Lemma getDatasets_outcome_witness :
  getDatasets "pool/a" "all" true 1 (toyState (scenarioWorld []))
  = (@Build_State toyKernel (scenarioWorld []) ∅ [listAll "pool/a" true 1],
     Ret [toyDataset poolA; toyDataset (toyFilesystem "pool/a/b" ∅)]).
Proof.
  destruct (getDatasets_outcome toyKernel "pool/a" "all" true 1
              (toyState (scenarioWorld [])) (scenarioWorld [])
              (Ret [Some poolA; Some (toyFilesystem "pool/a/b" ∅)]) eq_refl)
    as (H & _ & _).
  apply H. repeat constructor.
Defined.

(** Looking up a dataset that the kernel does not know returns ENOENT. *)
Lemma GetDataset_listing_failure_witness :
  GetDataset "pool/none" (toyState (scenarioWorld []))
  = (@Build_State toyKernel (scenarioWorld []) ∅ [listAll "pool/none" false 0],
     Err (Errno 2)).
Proof.
  exact (GetDataset_listing_failure toyKernel "pool/none" (toyState (scenarioWorld []))
           (scenarioWorld []) (Errno 2) eq_refl).
Defined.

(** Creating a filesystem that exists fails with EEXIST; no lookup follows.
    The nil map is accepted. *)
Lemma CreateFilesystem_outcome_witness :
  CreateFilesystem "pool/a" None (toyState (scenarioWorld []))
  = (@Build_State toyKernel (scenarioWorld []) ∅ [@CallCreate toyKernel "pool/a" 2%N ∅],
     Err (Errno 17)).
Proof.
  exact (proj1 (CreateFilesystem_outcome toyKernel "pool/a" None
                  (toyState (scenarioWorld [])) (scenarioWorld []) (Err (Errno 17))
                  eq_refl)).
Defined.

Lemma Clone_outcome_witness :
  heap (Clone (zeroDataset "pool/a@s1") "pool/d" (Some 0%nat) callerState).1
  = heap callerState.
Proof.
  exact (proj2 (Clone_outcome toyKernel (zeroDataset "pool/a@s1") "pool/d" (Some 0%nat)
                  callerState (scenarioWorld []) (Ret tt) eq_refl)).
Defined.

Lemma Destroy_encode_failure_witness :
  destroy "pool/c" false (@Build_State failingEncoderKernel (scenarioWorld []) ∅ [])
  = (@Build_State failingEncoderKernel (scenarioWorld []) ∅ [],
     Err (errorString "nv: unsupported type")).
Proof.
  exact (proj1 (Destroy_encode_failure failingEncoderKernel (destroyPlain false)
                  (errorString "nv: unsupported type") eq_refl)
           "pool/c" (@Build_State failingEncoderKernel (scenarioWorld []) ∅ [])).
Defined.

(** With a working encoder the plain destroy of [pool/c] is one ioctl. *)
Example Destroy_plain_pool_c :
  Destroy 1 (zeroDataset "pool/c") (destroyPlain true) (toyState (scenarioWorld []))
  = Some (@Build_State toyKernel
            {| live := [toyFilesystem "pool" ∅; poolA; toyFilesystem "pool/a/b" ∅];
               busy := [] |}
            ∅ [CallIoctl "pool/c" [Byte.x00]],
          Ret tt).
Proof. vm_compute. reflexivity. Qed.

Lemma Mount_outcome_witness :
  trace (Mount toyUnmarshalArgs "pool/a" (toyState (scenarioWorld []))).1
  = [listAll "pool/a" false 0; CallMount "pool/a" false].
Proof.
  exact (proj2 (proj1 (Mount_outcome toyKernel toyUnmarshalArgs "pool/a"
                         (toyState (scenarioWorld []))
                         {| MountArgs.Name := "pool/a"; MountArgs.Overlay := false |}
                         (@Build_State toyKernel (scenarioWorld []) ∅
                            [listAll "pool/a" false 0])
                         (Ret (toyDataset poolA))
                         eq_refl ltac:(discriminate) eq_refl))).
Defined.

Lemma Destroy_only_lists_and_destroys_witness :
  heap scenarioAborted = heap (toyState (scenarioWorld ["pool/a/b"])) ∧
  ∃ T, trace scenarioAborted = T ∧
    ∀ c, c ∈ T →
      (∃ name types recurse depth, c = CallList name types recurse depth) ∨
      (∃ name request, c = CallIoctl name request).
Proof.
  exact (Destroy_only_lists_and_destroys toyKernel 3 (toyDataset poolA) destroyAll
           (toyState (scenarioWorld ["pool/a/b"])) scenarioAborted (Err (Errno 16))
           ltac:(vm_compute; reflexivity)).
Defined.

(** A dataset built by hand, without its record, and [RecursiveClones]:
    the call panics at once. *)
Lemma Destroy_nil_record_witness :
  Destroy 1 (zeroDataset "pool/c")
    {| Recursive := false; RecursiveClones := true;
       ForceUnmount := false; Defer := false |}
    (toyState (scenarioWorld []))
  = Some (toyState (scenarioWorld []), Panic NilDereference) ∧
  @Panic unit NilDereference ≠ Ret tt.
Proof.
  split; [reflexivity|].
  exact (proj1 (Destroy_nil_record toyKernel 1 (zeroDataset "pool/c")
                  {| Recursive := false; RecursiveClones := true;
                     ForceUnmount := false; Defer := false |}
                  (toyState (scenarioWorld [])) (toyState (scenarioWorld []))
                  (Panic NilDereference) eq_refl eq_refl eq_refl)).
Defined.

Lemma Destroy_success_trace_witness :
  ∃ T encoded,
    nvEncode toyKernel (destroyCommand false) = Ret encoded ∧
    trace scenarioDestroyed = (T ++ [CallIoctl "pool/a" encoded])%list ∧
    (∃ s1 children,
       Children (toyDataset poolA) 1 (toyState (scenarioWorld [])) = (s1, Ret children) ∧
       ∀ child, child ∈ children → CallIoctl (Dataset.Name child) encoded ∈ T) ∧
    (∃ clones, clonesOf (toyDataset poolA) = Ret clones ∧
       ∀ cloneName, is_Some (clones !! cloneName) → listAll cloneName false 0 ∈ T).
Proof.
  destruct (Destroy_success_trace toyKernel 2 (toyDataset poolA) destroyAll
              (toyState (scenarioWorld [])) scenarioDestroyed
              ltac:(vm_compute; reflexivity))
    as (T & encoded & Henc & HT & Hch & Hcl).
  exists T, encoded. split; [exact Henc|]. split; [exact HT|].
  split; [exact (Hch eq_refl) | exact (Hcl eq_refl)].
Defined.

Lemma Destroy_leaf_witness :
  Destroy 1 (toyDataset (toyFilesystem "pool/c" ∅)) destroyAll
    (toyState (scenarioWorld []))
  = Some (destroy "pool/c" false
            (@Build_State toyKernel (scenarioWorld []) ∅ [listAll "pool/c" true 1])).
Proof.
  exact (Destroy_leaf toyKernel 0 (toyDataset (toyFilesystem "pool/c" ∅)) destroyAll
           (toyState (scenarioWorld [])) (scenarioWorld [])
           (Some (toyFilesystem "pool/c" ∅)) (toyDataset (toyFilesystem "pool/c" ∅))
           eq_refl eq_refl eq_refl eq_refl eq_refl).
Defined.

(** Two clones, two slots, one name. *)
Example propClones_value_two_clones :
  (propClones_value
     {| propClones.Value := {[ "pool/c" := true; "pool/d" := true ]} |}
     (toyState (scenarioWorld []))).2
  = Ret ["pool/d"; EmptyString].
Proof. vm_compute. reflexivity. Qed.
